(** * generate_names.py: merge of the hardcoded names into names.json

    A shallow embedding of [src/generate_names.py].  The script loads a JSON
    document, filters a literal list of name records against the identifiers
    already present, concatenates, sorts by lower-cased display name, writes
    the result back and prints two summary lines.

    Python values are embedded as the JSON-shaped data [json.load] produces;
    every Python exception the script can raise is a value of [exn], carried
    by the [result] monad. *)

From Stdlib Require Import String Ascii DecimalString.
From Stdlib Require Import List Bool Arith ZArith NArith Lia.
From Stdlib Require Import Permutation Sorted.
From Stdlib Require Floats.SpecFloat.
Import ListNotations.

(** ** Python strings *)

(** A Python [str] is a sequence of Unicode code points. *)
Definition codepoint := N.
Definition str := list codepoint.

(** The [str] denoted by an ASCII literal of the source. *)
Definition lit (s : string) : str :=
  map N_of_ascii (list_ascii_of_string s).

(** [a == b] on [str]. *)
Fixpoint str_eqb (a b : str) : bool :=
  match a, b with
  | [], [] => true
  | x :: a', y :: b' => (x =? y)%N && str_eqb a' b'
  | _, _ => false
  end.

(** [str] comparison is lexicographic on code points. *)
Fixpoint str_compare (a b : str) : comparison :=
  match a, b with
  | [], [] => Eq
  | [], _ :: _ => Lt
  | _ :: _, [] => Gt
  | x :: a', y :: b' =>
      match N.compare x y with
      | Eq => str_compare a' b'
      | c => c
      end
  end.

(** [a < b] and [a <= b] on [str]. *)
Definition str_ltb (a b : str) : bool :=
  match str_compare a b with Lt => true | _ => false end.
Definition str_leb (a b : str) : bool :=
  match str_compare a b with Gt => false | _ => true end.

(** What [str.lower] does to a string of ASCII letters: [A]-[Z] go to
    [a]-[z].  Code points that are not ASCII capitals are left as they are. *)
Definition lower_codepoint (c : codepoint) : codepoint :=
  if (65 <=? c)%N && (c <=? 90)%N then (c + 32)%N else c.
Definition ascii_lower (s : str) : str := map lower_codepoint s.
Definition is_ascii (s : str) : Prop := Forall (fun c => (c < 128)%N) s.

(** ** Exceptions and results *)

Inductive exn :=
| FileNotFoundError        (* open: no such file *)
| OSError                  (* open, read or write refused or failed *)
| UnicodeDecodeError       (* read: the bytes are not text *)
| JSONDecodeError          (* json.load: the text is not a JSON document *)
| RecursionError           (* json.load: the document is nested too deep *)
| ValueError               (* json.load: an integer too long to convert;
                              print: standard output is closed *)
| TypeError
| KeyError
| AttributeError.

Inductive result (A : Type) :=
| Ok (a : A)
| Err (e : exn).
Arguments Ok {A} a.
Arguments Err {A} e.

Definition bind {A B} (m : result A) (k : A -> result B) : result B :=
  match m with
  | Ok a => k a
  | Err e => Err e
  end.

Declare Scope result_scope.
Delimit Scope result_scope with result.
Notation "x <- m ;; k" := (bind m (fun x => k))
  (at level 61, m at next level, right associativity) : result_scope.
Notation "' p <- m ;; k" := (bind m (fun x => let p := x in k))
  (at level 61, p pattern, m at next level, right associativity) : result_scope.
Local Open Scope result_scope.

(** A comprehension [[f x for x in l]], left to right, stopping at the first
    exception. *)
Fixpoint mapM {A B} (f : A -> result B) (l : list A) : result (list B) :=
  match l with
  | [] => Ok []
  | x :: l' => y <- f x ;; ys <- mapM f l' ;; Ok (y :: ys)
  end.

(** A comprehension [[x for x in l if p x]]. *)
Fixpoint filterM {A} (p : A -> result bool) (l : list A) : result (list A) :=
  match l with
  | [] => Ok []
  | x :: l' =>
      b <- p x ;; ys <- filterM p l' ;; Ok (if b then x :: ys else ys)
  end.

(** ** JSON-shaped Python values *)

(** What [json.load] returns: [None], [bool], [int], [float], [str], [list]
    and [dict].  A [dict] keeps its insertion order, so it is an association
    list; [json.load] never produces a repeated key. *)
#[warnings="-register-all"]
Inductive json :=
| JNull
| JBool (b : bool)
| JInt (z : Z)
| JFloat (f : SpecFloat.spec_float)
| JStr (s : str)
| JArr (l : list json)
| JObj (d : list (str * json)).

Fixpoint assoc (k : str) (d : list (str * json)) : option json :=
  match d with
  | [] => None
  | (k', v) :: d' => if str_eqb k k' then Some v else assoc k d'
  end.

(** [o[k]] for a string key [k]. *)
Definition getitem (o : json) (k : str) : result json :=
  match o with
  | JObj d =>
      match assoc k d with
      | Some v => Ok v
      | None => Err KeyError
      end
  | _ => Err TypeError
  end.

(** [for x in v]: a list gives its items, a dict its keys, a string its
    characters; nothing else is iterable. *)
Definition iter (v : json) : result (list json) :=
  match v with
  | JArr l => Ok l
  | JObj d => Ok (map (fun kv => JStr (fst kv)) d)
  | JStr s => Ok (map (fun c => JStr [c]) s)
  | _ => Err TypeError
  end.

(** [hash(v)]: lists and dicts are unhashable. *)
Definition hashable (v : json) : bool :=
  match v with
  | JArr _ | JObj _ => false
  | _ => true
  end.

(** Numbers compare by value across [bool], [int] and [float]; a [float]
    is a binary64 number in canonical form.  [float_is_int f z]: the float
    [f] has the integer value [z]. *)
Definition float_is_int (f : SpecFloat.spec_float) (z : Z) : bool :=
  match f with
  | SpecFloat.S754_zero _ => (z =? 0)%Z
  | SpecFloat.S754_finite s m e =>
      let v := if s then Z.neg m else Z.pos m in
      if (0 <=? e)%Z then (z =? Z.shiftl v e)%Z
      else (Z.shiftl z (- e) =? v)%Z
  | _ => false
  end.

Definition int_of_bool (b : bool) : Z := if b then 1%Z else 0%Z.

(** [a == b] on hashable values. *)
Definition py_eq (a b : json) : bool :=
  match a, b with
  | JNull, JNull => true
  | JStr s, JStr t => str_eqb s t
  | JBool x, JBool y => (int_of_bool x =? int_of_bool y)%Z
  | JBool x, JInt z | JInt z, JBool x => (int_of_bool x =? z)%Z
  | JInt x, JInt y => (x =? y)%Z
  | JBool x, JFloat f | JFloat f, JBool x => float_is_int f (int_of_bool x)
  | JInt z, JFloat f | JFloat f, JInt z => float_is_int f z
  | JFloat f, JFloat g => SpecFloat.SFeqb f g
  | _, _ => false
  end.

(** A [set] of hashable values, held as the list of what was added to it.
    [v in s] hashes [v] and then looks for an equal element. *)
Definition pyset := list json.

Definition set_contains (v : json) (s : pyset) : result bool :=
  if hashable v then Ok (existsb (py_eq v) s) else Err TypeError.

(** Adding [v] to a set under construction hashes it. *)
Definition set_elem (v : json) : result json :=
  if hashable v then Ok v else Err TypeError.

(** [len(v)]. *)
Definition len (v : json) : result nat :=
  match v with
  | JArr l => Ok (length l)
  | JObj d => Ok (length d)
  | JStr s => Ok (length s)
  | _ => Err TypeError
  end.

(** [a + b] where [b] is a list: only list + list is defined. *)
Definition list_add (a : json) (b : list json) : result (list json) :=
  match a with
  | JArr l => Ok (l ++ b)
  | _ => Err TypeError
  end.

(** ** The literal [additional_names] *)

Section Candidates.
Local Open Scope string_scope.

(** Every dict of the literal has the same seven keys in the same order. *)
Definition record (id name gender : string) (origins styles : list string)
    (meaning popularity : string) : json :=
  JObj [ (lit "id", JStr (lit id));
         (lit "name", JStr (lit name));
         (lit "gender", JStr (lit gender));
         (lit "origins", JArr (map (fun s => JStr (lit s)) origins));
         (lit "styles", JArr (map (fun s => JStr (lit s)) styles));
         (lit "meaning", JStr (lit meaning));
         (lit "popularity", JStr (lit popularity)) ].

Definition additional_names : list json := [
  (* Popular Male Names *)
  record "aiden" "Aiden" "male" ["irish"] ["modern"; "strong"]
    "Little fire" "popular";
  record "jackson" "Jackson" "male" ["english"] ["modern"; "strong"]
    "Son of Jack" "popular";
  record "logan" "Logan" "male" ["scottish"] ["modern"; "strong"]
    "Small hollow" "popular";
  record "lucas" "Lucas" "male" ["latin"] ["classic"; "modern"]
    "Light" "popular";
  record "michael" "Michael" "male" ["hebrew"] ["classic"; "biblical"]
    "Who is like God" "popular";
  (* Popular Female Names *)
  record "emma" "Emma" "female" ["german"] ["classic"; "vintage"]
    "Universal" "popular";
  record "olivia" "Olivia" "female" ["latin"] ["classic"; "literary"]
    "Olive tree" "popular";
  record "ava" "Ava" "female" ["latin"] ["modern"; "elegant"]
    "Life" "popular";
  record "sophia" "Sophia" "female" ["greek"] ["classic"; "elegant"]
    "Wisdom" "popular";
  record "isabella" "Isabella" "female" ["italian"; "spanish"] ["classic"; "royal"]
    "Devoted to God" "popular";
  record "mia" "Mia" "female" ["italian"; "scandinavian"] ["modern"; "gentle"]
    "Mine" "popular";
  record "charlotte" "Charlotte" "female" ["french"] ["classic"; "royal"]
    "Free woman" "popular";
  record "amelia" "Amelia" "female" ["german"] ["classic"; "vintage"]
    "Industrious" "popular";
  record "harper" "Harper" "female" ["english"] ["modern"; "literary"]
    "Harp player" "popular";
  record "evelyn" "Evelyn" "female" ["english"] ["vintage"; "elegant"]
    "Desired" "popular";
  (* Nature Names *)
  record "river" "River" "neutral" ["english"] ["nature"; "modern"]
    "Flowing water" "common";
  record "sage" "Sage" "neutral" ["latin"] ["nature"; "bohemian"]
    "Wise one" "common";
  record "willow" "Willow" "female" ["english"] ["nature"; "gentle"]
    "Willow tree" "common";
  record "aspen" "Aspen" "neutral" ["english"] ["nature"; "modern"]
    "Quaking tree" "uncommon";
  record "ivy" "Ivy" "female" ["english"] ["nature"; "vintage"]
    "Climbing plant" "common";
  record "hazel" "Hazel" "female" ["english"] ["nature"; "vintage"]
    "Hazelnut tree" "common";
  record "jasper" "Jasper" "male" ["persian"] ["nature"; "vintage"]
    "Treasurer" "uncommon";
  record "rowan" "Rowan" "neutral" ["irish"] ["nature"; "celtic"]
    "Little red one" "uncommon";
  record "oak" "Oak" "male" ["english"] ["nature"; "strong"]
    "Oak tree" "rare";
  record "wren" "Wren" "female" ["english"] ["nature"; "gentle"]
    "Small bird" "uncommon";
  (* International Names *)
  record "santiago" "Santiago" "male" ["spanish"] ["classic"; "strong"]
    "Saint James" "common";
  record "diego" "Diego" "male" ["spanish"] ["classic"; "strong"]
    "Supplanter" "common";
  record "sofia" "Sofia" "female" ["spanish"; "italian"] ["classic"; "elegant"]
    "Wisdom" "popular";
  record "aria" "Aria" "female" ["italian"] ["modern"; "artistic"]
    "Air, melody" "popular";
  record "luna" "Luna" "female" ["latin"; "spanish"] ["modern"; "mystical"]
    "Moon" "popular";
  record "kai" "Kai" "neutral" ["hawaiian"; "japanese"] ["modern"; "nature"]
    "Sea" "common";
  record "yuki" "Yuki" "neutral" ["japanese"] ["modern"; "gentle"]
    "Snow" "uncommon";
  record "arjun" "Arjun" "male" ["indian"] ["classic"; "strong"]
    "Bright, shining" "common";
  record "priya" "Priya" "female" ["indian"] ["classic"; "gentle"]
    "Beloved" "common";
  record "omar" "Omar" "male" ["arabic"] ["classic"; "strong"]
    "Flourishing" "common";
  record "layla" "Layla" "female" ["arabic"] ["classic"; "romantic"]
    "Night" "popular";
  record "zara" "Zara" "female" ["arabic"] ["modern"; "elegant"]
    "Princess" "common";
  (* Vintage/Classic Names *)
  record "theodore" "Theodore" "male" ["greek"] ["vintage"; "classic"]
    "Gift of God" "popular";
  record "arthur" "Arthur" "male" ["celtic"] ["vintage"; "royal"]
    "Bear" "common";
  record "felix" "Felix" "male" ["latin"] ["vintage"; "cheerful"]
    "Happy, fortunate" "uncommon";
  record "augustus" "Augustus" "male" ["latin"] ["vintage"; "royal"]
    "Great, magnificent" "uncommon";
  record "beatrice" "Beatrice" "female" ["latin"] ["vintage"; "literary"]
    "She who brings happiness" "uncommon";
  record "clara" "Clara" "female" ["latin"] ["vintage"; "classic"]
    "Bright, clear" "common";
  record "eleanor" "Eleanor" "female" ["french"] ["vintage"; "royal"]
    "Light" "popular";
  record "josephine" "Josephine" "female" ["french"] ["vintage"; "elegant"]
    "God will increase" "common";
  record "florence" "Florence" "female" ["latin"] ["vintage"; "classic"]
    "Flourishing" "uncommon";
  record "mabel" "Mabel" "female" ["latin"] ["vintage"; "gentle"]
    "Lovable" "uncommon";
  (* Biblical/Religious Names *)
  record "abraham" "Abraham" "male" ["hebrew"] ["biblical"; "classic"]
    "Father of multitudes" "common";
  record "ezekiel" "Ezekiel" "male" ["hebrew"] ["biblical"; "strong"]
    "God strengthens" "uncommon";
  record "isaiah" "Isaiah" "male" ["hebrew"] ["biblical"; "strong"]
    "Salvation of the Lord" "popular";
  record "jeremiah" "Jeremiah" "male" ["hebrew"] ["biblical"; "strong"]
    "Appointed by God" "common";
  record "micah" "Micah" "neutral" ["hebrew"] ["biblical"; "modern"]
    "Who is like God" "common";
  record "sarah" "Sarah" "female" ["hebrew"] ["biblical"; "classic"]
    "Princess" "popular";
  record "rebecca" "Rebecca" "female" ["hebrew"] ["biblical"; "classic"]
    "To bind" "common";
  record "rachel" "Rachel" "female" ["hebrew"] ["biblical"; "classic"]
    "Ewe" "common";
  record "leah" "Leah" "female" ["hebrew"] ["biblical"; "gentle"]
    "Weary" "common";
  record "hannah" "Hannah" "female" ["hebrew"] ["biblical"; "classic"]
    "Grace" "popular"
].
End Candidates.

(** The literal is long: proofs compute on it with [vm_compute] and
    otherwise leave it folded. *)
#[global] Opaque additional_names.

(** ** [list.sort(key=...)] *)

(** [list.sort] first computes the key of every element, in order, and then
    sorts stably, comparing keys with [<] only.  The keys here are [str], on
    which [<] is a strict total order, so the stably sorted arrangement is
    unique ([stable_sorted_unique] below) and any stable algorithm computes
    it; insertion is the simplest one. *)
Section Sort.
Variable A : Type.

Fixpoint insert (x : str * A) (l : list (str * A)) : list (str * A) :=
  match l with
  | [] => [x]
  | y :: l' =>
      if str_ltb (fst y) (fst x) then y :: insert x l' else x :: y :: l'
  end.

Definition stable_sort (l : list (str * A)) : list (str * A) :=
  fold_right insert [] l.

Definition sort_by (key : A -> result str) (l : list A) : result (list A) :=
  keys <- mapM key l ;;
  Ok (map snd (stable_sort (combine keys l))).

(** [fst x <= fst y], as the sort sees it: not [fst y < fst x]. *)
Definition key_le (x y : str * A) : Prop := str_ltb (fst y) (fst x) = false.

(** The pair [x] has key [k]. *)
Definition has_key (k : str) (x : str * A) : bool := str_eqb (fst x) k.

(** A pair the sort handles: an element and the key computed for it. *)
Definition keyed (key : A -> result str) (p : str * A) : Prop :=
  key (snd p) = Ok (fst p).

(** The key function gives [k] on [r]. *)
Definition key_is (key : A -> result str) (k : str) (r : A) : bool :=
  match key r with
  | Ok k' => str_eqb k' k
  | Err _ => false
  end.
End Sort.
Arguments insert {A} x l.
Arguments stable_sort {A} l.
Arguments sort_by {A} key l.
Arguments key_le {A} x y.
Arguments has_key {A} k x.
Arguments keyed {A} key p.
Arguments key_is {A} key k r.

(** ** The script *)

Section Script.
(** [str.lower], Python's Unicode lower-casing. *)
Variable lower : str -> str.

(** [v.lower()]: only [str] has the method. *)
Definition call_lower (v : json) : result str :=
  match v with
  | JStr s => Ok (lower s)
  | _ => Err AttributeError
  end.

(** [lambda x: x['name'].lower()] *)
Definition sort_key (x : json) : result str :=
  n <- getitem x (lit "name") ;; call_lower n.

(** [{name['id'] for name in existing_names}] *)
Definition existing_ids_of (existing_names : json) : result pyset :=
  names <- iter existing_names ;;
  mapM (fun name => v <- getitem name (lit "id") ;; set_elem v) names.

(** [[name for name in additional_names if name['id'] not in existing_ids]] *)
Definition new_names_of (existing_ids : pyset) : result (list json) :=
  filterM (fun name =>
             v <- getitem name (lit "id") ;;
             b <- set_contains v existing_ids ;;
             Ok (negb b))
          additional_names.

(** Lines 83-90: from the loaded value to [new_names] and the sorted
    [all_names]. *)
Definition merge (existing_names : json) : result (list json * list json) :=
  existing_ids <- existing_ids_of existing_names ;;
  new_names <- new_names_of existing_ids ;;
  all_names <- list_add existing_names new_names ;;
  all_names <- sort_by sort_key all_names ;;
  Ok (new_names, all_names).
End Script.

(** ** The file and the terminal *)

(** What the script can find at the path of [names.json]. *)
Inductive file_state :=
| Missing                  (* no such file *)
| Unreadable               (* open or read fails in the operating system *)
| Undecodable              (* the bytes are not text in the locale's encoding *)
| Contents (text : str).

(** What can happen to [open(path, 'w')] followed by [json.dump]: the text
    is written; or [open] is refused and the file is untouched; or the write
    breaks off after the file was truncated and leaves [remains] behind. *)
Inductive write_outcome :=
| Written
| Refused
| Torn (remains : file_state).

Record state := {
  names_json : file_state;
  stdout : list str
}.

(** Steps of the script: they read and change the state and may raise. *)
Definition io (A : Type) := state -> result A * state.

Definition io_bind {A B} (m : io A) (k : A -> io B) : io B :=
  fun s =>
    match m s with
    | (Ok a, s') => k a s'
    | (Err e, s') => (Err e, s')
    end.

Definition lift {A} (r : result A) : io A := fun s => (r, s).

Declare Scope io_scope.
Delimit Scope io_scope with io.
Notation "x <- m ;; k" := (io_bind m (fun x => k))
  (at level 61, m at next level, right associativity) : io_scope.
Notation "' p <- m ;; k" := (io_bind m (fun x => let p := x in k))
  (at level 61, p pattern, m at next level, right associativity) : io_scope.
Notation "m ;; k" := (io_bind m (fun _ => k))
  (at level 61, right associativity) : io_scope.

(** [f"{n}"] for a length [n]: its decimal digits. *)
Definition format_nat (n : nat) : str :=
  lit (NilEmpty.string_of_uint (Nat.to_uint n)).

Definition expanded_line (before after : nat) : str :=
  lit "Database expanded from " ++ format_nat before ++ lit " to "
    ++ format_nat after ++ lit " names".

Definition added_line (added : nat) : str :=
  lit "Added " ++ format_nat added ++ lit " new names".

Section Main.
Variable lower : str -> str.
(** [json.load] on the text of the file: the value, or what it raises. *)
Variable json_loads : str -> result json.
(** [json.dump(_, indent=2)]: the text it produces. *)
Variable json_dumps : json -> str.
(** The operating system's answer to writing a text to the path. *)
Variable os_write : str -> write_outcome.
(** Its answer to writing a line to standard output: done, or the error
    [print] raises (a broken pipe, a full disk, a closed stream). *)
Variable os_print : str -> result unit.

(** Lines 5-6. *)
Definition load : io json :=
  fun s =>
    match names_json s with
    | Missing => (Err FileNotFoundError, s)
    | Unreadable => (Err OSError, s)
    | Undecodable => (Err UnicodeDecodeError, s)
    | Contents text => (json_loads text, s)
    end.

(** Lines 93-94. *)
Definition dump (v : json) : io unit :=
  fun s =>
    match os_write (json_dumps v) with
    | Written => (Ok tt, {| names_json := Contents (json_dumps v);
                            stdout := stdout s |})
    | Refused => (Err OSError, s)
    | Torn remains => (Err OSError, {| names_json := remains;
                                       stdout := stdout s |})
    end.

(** [print(line)]: the line reaches the terminal, or nothing of it does
    and [print] raises. *)
Definition print (line : str) : io unit :=
  fun s =>
    match os_print line with
    | Ok _ => (Ok tt, {| names_json := names_json s;
                         stdout := stdout s ++ [line] |})
    | Err e => (Err e, s)
    end.

Definition main : io unit :=
  (existing_names <- load ;;
   '(new_names, all_names) <- lift (merge lower existing_names) ;;
   dump (JArr all_names) ;;
   before <- lift (len existing_names) ;;
   print (expanded_line before (length all_names)) ;;
   print (added_line (length new_names)))%io.
End Main.

(** ** Identifiers *)

(** The value under ['id'] of a record, when it is a dict that has one. *)
Definition id_of (r : json) : option json :=
  match r with
  | JObj d => assoc (lit "id") d
  | _ => None
  end.

Definition ids (l : list json) : list (option json) := map id_of l.

Fixpoint json_eq_dec (a b : json) {struct a} : {a = b} + {a <> b}.
Proof.
  decide equality.
  - apply Bool.bool_dec.
  - apply Z.eq_dec.
  - decide equality; try apply Z.eq_dec; try apply Pos.eq_dec;
      apply Bool.bool_dec.
  - apply (list_eq_dec N.eq_dec).
  - apply (list_eq_dec json_eq_dec).
  - apply list_eq_dec. decide equality. apply (list_eq_dec N.eq_dec).
Defined.

Definition option_json_eqb (a b : option json) : bool :=
  match a, b with
  | Some x, Some y => if json_eq_dec x y then true else false
  | None, None => true
  | _, _ => false
  end.

(** The candidates whose identifier is not among the identifiers of [C]. *)
Definition novel (C : list json) : list json :=
  filter (fun n => negb (existsb (option_json_eqb (id_of n)) (ids C)))
         additional_names.

(** A record the script can process: a dict with a hashable ['id'] and a
    [str] under ['name']. *)
Definition well_formed (r : json) : Prop :=
  exists d i n,
    r = JObj d /\ assoc (lit "id") d = Some i /\ hashable i = true
    /\ assoc (lit "name") d = Some (JStr n).

(** ** Vocabulary of the statements *)

(** The identifier and the display name of a record, when they are
    strings. *)
Definition str_id_of (r : json) : option str :=
  match id_of r with
  | Some (JStr s) => Some s
  | _ => None
  end.

Definition str_name_of (r : json) : option str :=
  match r with
  | JObj d => match assoc (lit "name") d with
              | Some (JStr s) => Some s
              | _ => None
              end
  | _ => None
  end.

(** A dict with a string identifier and an ASCII display name. *)
Definition is_record (r : json) : bool :=
  match r, str_id_of r, str_name_of r with
  | JObj _, Some _, Some n => forallb (fun c => (c <? 128)%N) n
  | _, _, _ => false
  end.

(** A decision of pairwise distinctness for strings. *)
Fixpoint distinct (l : list str) : bool :=
  match l with
  | [] => true
  | s :: l' => negb (existsb (str_eqb s) l') && distinct l'
  end.

Definition id_text (o : option json) : str :=
  match o with
  | Some (JStr s) => s
  | _ => []
  end.

(** [lower] does to ASCII strings what [str.lower] does to them. *)
Definition lower_on_ascii (lower : str -> str) : Prop :=
  forall s, is_ascii s -> lower s = ascii_lower s.

(** The file cannot be loaded: it is missing, cannot be read, or
    [json.load] raises on its text. *)
Definition unloadable (json_loads : str -> result json) (s : state) : Prop :=
  names_json s = Missing
  \/ names_json s = Unreadable
  \/ names_json s = Undecodable
  \/ exists text e, names_json s = Contents text /\ json_loads text = Err e.

(** ** A small existing collection *)

Section Sample.
Local Open Scope string_scope.

(** An existing file of three records: the second has the identifier of a
    candidate and other fields, the third the display name of a candidate
    in capitals under an identifier of its own. *)
Definition sample_existing : list json := [
  record "zed" "zed" "male" ["english"] ["modern"] "Last letter" "rare";
  record "ava" "AVA" "female" ["hebrew"] ["vintage"] "Bird" "rare";
  record "aiden-2" "AIDEN" "male" ["irish"] ["modern"] "Fiery" "common"
].
End Sample.

Definition sample_merged : list json :=
  match merge ascii_lower (JArr sample_existing) with
  | Ok (_, all) => all
  | Err _ => []
  end.

(** The merged list for an empty file, computed. *)
Definition merged_empty : list json :=
  match merge ascii_lower (JArr []) with
  | Ok (_, all) => all
  | Err _ => []
  end.

(** ** A small run *)

(** Stand-ins for the decoder, the encoder and the operating system, enough
    to run [main] on an example: a decoder that knows the empty array, an
    encoder that writes the number of records, a disk that takes any text. *)
Definition sample_loads (text : str) : result json :=
  if str_eqb text (lit "[]") then Ok (JArr []) else Err JSONDecodeError.

Definition sample_dumps (v : json) : str :=
  match v with
  | JArr l => format_nat (length l)
  | _ => []
  end.

Definition sample_write (_ : str) : write_outcome := Written.

Definition sample_print (_ : str) : result unit := Ok tt.

Definition sample_state : state :=
  {| names_json := Contents (lit "[]"); stdout := [] |}.

Definition sample_final : state :=
  snd (main ascii_lower sample_loads sample_dumps sample_write sample_print sample_state).


(** ** Vocabulary of the further properties *)

(** What [name['id']], and the hashing of its value for the set, raise on
    the record [r]: [TypeError] when [r] is not a dict, [KeyError] when the
    dict has no ['id'], [TypeError] when the identifier is a list or a
    dict. *)
Definition id_error (r : json) : option exn :=
  match r with
  | JObj d =>
      match assoc (lit "id") d with
      | None => Some KeyError
      | Some v => if hashable v then None else Some TypeError
      end
  | _ => Some TypeError
  end.

(** What [x['name'].lower()] raises on the record [r]: [TypeError] when
    [r] is not a dict, [KeyError] when the dict has no ['name'],
    [AttributeError] when the name is not a [str]. *)
Definition name_error (r : json) : option exn :=
  match r with
  | JObj d =>
      match assoc (lit "name") d with
      | None => Some KeyError
      | Some (JStr _) => None
      | Some _ => Some AttributeError
      end
  | _ => Some TypeError
  end.

(** [a] sorts no later than [b]: both have a key and the keys are in
    order. *)
Definition key_leq {A} (key : A -> result str) (a b : A) : Prop :=
  exists ka kb, key a = Ok ka /\ key b = Ok kb /\ str_leb ka kb = true.

(** An element with the key its key function gives it; the empty key
    stands in where the function raises. *)
Definition decorate {A} (key : A -> result str) (r : A) : str * A :=
  (match key r with Ok k => k | Err _ => [] end, r).

(** Stand-ins for a decoder that reads [v] from any text and an encoder
    that writes the text [t] for any value. *)
Definition const_loads (v : json) (_ : str) : result json := Ok v.
Definition const_dumps (t : str) (_ : json) : str := t.

(** Files whose second record lacks the identifier, or the display
    name. *)
Definition sample_no_id : list json :=
  nth 0 sample_existing JNull
  :: JObj [(lit "name", JStr (lit "Ann"))] :: nil.

Definition sample_no_name : list json :=
  nth 0 sample_existing JNull
  :: JObj [(lit "id", JStr (lit "ann"))] :: nil.

(** ** JSON texts *)

(** The grammar of RFC 8259, as a recogniser: each function takes the text
    left to read and gives what is left after the construct, or [None]
    when the text does not start with one. *)
Definition is_ws (c : codepoint) : bool :=
  (c =? 32)%N || (c =? 9)%N || (c =? 10)%N || (c =? 13)%N.

Definition is_digit (c : codepoint) : bool := (48 <=? c)%N && (c <=? 57)%N.

Definition is_hex (c : codepoint) : bool :=
  is_digit c || ((65 <=? c)%N && (c <=? 70)%N)
  || ((97 <=? c)%N && (c <=? 102)%N).

Fixpoint skip_while (p : codepoint -> bool) (t : str) : str :=
  match t with
  | c :: t' => if p c then skip_while p t' else t
  | [] => []
  end.

Fixpoint strip_prefix (p t : str) : option str :=
  match p, t with
  | [], _ => Some t
  | c :: p', d :: t' => if (c =? d)%N then strip_prefix p' t' else None
  | _ :: _, [] => None
  end.

(** [1*DIGIT] *)
Definition digits1 (t : str) : option str :=
  match t with
  | c :: t' => if is_digit c then Some (skip_while is_digit t') else None
  | [] => None
  end.

(** [number = [ minus ] int [ frac ] [ exp ]], with [int = zero / ( digit1-9
    *DIGIT )], [frac = decimal-point 1*DIGIT] and
    [exp = e [ minus / plus ] 1*DIGIT]. *)
Definition json_int (t : str) : option str :=
  match t with
  | c :: t' =>
      if (c =? 48)%N then Some t'
      else if is_digit c then Some (skip_while is_digit t')
      else None
  | [] => None
  end.

Definition json_frac (t : str) : option str :=
  match strip_prefix (lit ".") t with
  | Some t' => digits1 t'
  | None => Some t
  end.

Definition json_exp (t : str) : option str :=
  match t with
  | e :: t' =>
      if (e =? 101)%N || (e =? 69)%N then
        match t' with
        | sg :: t'' =>
            if (sg =? 43)%N || (sg =? 45)%N then digits1 t'' else digits1 t'
        | [] => None
        end
      else Some t
  | [] => Some t
  end.

Definition json_number (t : str) : option str :=
  let t0 := match strip_prefix (lit "-") t with
            | Some t' => t'
            | None => t
            end in
  match json_int t0 with
  | Some t1 =>
      match json_frac t1 with
      | Some t2 => json_exp t2
      | None => None
      end
  | None => None
  end.

(** The characters of a string after its opening quotation mark, up to and
    with the closing one: unescaped characters from U+0020 on, and the
    escapes. *)
Fixpoint json_chars (t : str) : option str :=
  match t with
  | [] => None
  | c :: t' =>
      if (c =? 34)%N then Some t'
      else if (c =? 92)%N then
        match t' with
        | [] => None
        | e :: t'' =>
            if existsb (N.eqb e) [34; 92; 47; 98; 102; 110; 114; 116]%N
            then json_chars t''
            else if (e =? 117)%N then
              match t'' with
              | h1 :: h2 :: h3 :: h4 :: r =>
                  if is_hex h1 && is_hex h2 && is_hex h3 && is_hex h4
                  then json_chars r
                  else None
              | _ => None
              end
            else None
        end
      else if (32 <=? c)%N then json_chars t'
      else None
  end.

(** [value = false / null / true / object / array / number / string];
    [json_elements] reads [value *( ws , ws value ) ws ]] and [json_members]
    reads [member *( ws , ws member ) ws }].  Every call spends one unit of
    [fuel]; a text of [n] characters needs at most [2 * n + 2]. *)
Fixpoint json_value (fuel : nat) (t : str) : option str :=
  match fuel with
  | 0 => None
  | S fuel' =>
      match t with
      | [] => None
      | c :: t' =>
          if (c =? 34)%N then json_chars t'
          else if (c =? 91)%N then
            match skip_while is_ws t' with
            | d :: r =>
                if (d =? 93)%N then Some r else json_elements fuel' (d :: r)
            | [] => None
            end
          else if (c =? 123)%N then
            match skip_while is_ws t' with
            | d :: r =>
                if (d =? 125)%N then Some r else json_members fuel' (d :: r)
            | [] => None
            end
          else
            match strip_prefix (lit "true") t with
            | Some r => Some r
            | None =>
                match strip_prefix (lit "false") t with
                | Some r => Some r
                | None =>
                    match strip_prefix (lit "null") t with
                    | Some r => Some r
                    | None => json_number t
                    end
                end
            end
      end
  end
with json_elements (fuel : nat) (t : str) : option str :=
  match fuel with
  | 0 => None
  | S fuel' =>
      match json_value fuel' t with
      | None => None
      | Some r =>
          match skip_while is_ws r with
          | d :: r' =>
              if (d =? 44)%N then json_elements fuel' (skip_while is_ws r')
              else if (d =? 93)%N then Some r'
              else None
          | [] => None
          end
      end
  end
with json_members (fuel : nat) (t : str) : option str :=
  match fuel with
  | 0 => None
  | S fuel' =>
      match t with
      | [] => None
      | q :: t' =>
          if (q =? 34)%N then
            match json_chars t' with
            | None => None
            | Some r =>
                match skip_while is_ws r with
                | [] => None
                | colon :: r1 =>
                    if (colon =? 58)%N then
                      match json_value fuel' (skip_while is_ws r1) with
                      | None => None
                      | Some r2 =>
                          match skip_while is_ws r2 with
                          | d :: r3 =>
                              if (d =? 44)%N
                              then json_members fuel' (skip_while is_ws r3)
                              else if (d =? 125)%N then Some r3
                              else None
                          | [] => None
                          end
                      end
                    else None
                end
            end
          else None
      end
  end.

(** [JSON-text = ws value ws]: the text is a valid JSON document. *)
Definition valid_json (t : str) : bool :=
  match json_value (2 * length t + 2) (skip_while is_ws t) with
  | Some r =>
      match skip_while is_ws r with
      | [] => true
      | _ :: _ => false
      end
  | None => false
  end.



(** A run on the sample file in which the terminal takes the first line
    and refuses the second. *)
Definition sample_print_once (line : str) : result unit :=
  if str_eqb line (added_line 56) then Err OSError else Ok tt.

Definition sample_failed : state :=
  snd (main ascii_lower (const_loads (JArr sample_existing)) sample_dumps
            sample_write sample_print_once sample_state).

(** An existing file with two records whose display names differ from a
    candidate's only by case. *)
Definition sample_ties : list json :=
  nth 2 sample_existing JNull
  :: JObj [(lit "id", JStr (lit "aiden-3"));
           (lit "name", JStr (lit "aiden"))] :: nil.

Definition sample_ties_merged : list json :=
  match merge ascii_lower (JArr sample_ties) with
  | Ok (_, all) => all
  | Err _ => []
  end.

(** A file that holds the text written for the merged empty file. *)
Definition merged_state : state :=
  {| names_json := Contents (lit "merged"); stdout := [] |}.

(** * Proofs *)

(** ** Strings *)

Lemma str_eqb_eq (a b : str) : str_eqb a b = true <-> a = b.
Proof.
  revert b. induction a as [|x a IH]; intros [|y b]; simpl;
    try (split; (discriminate || reflexivity)).
  rewrite andb_true_iff, N.eqb_eq, IH. split.
  - intros [-> ->]. reflexivity.
  - intros H. injection H. auto.
Qed.

Lemma str_eqb_refl (a : str) : str_eqb a a = true.
Proof. now apply str_eqb_eq. Qed.

Lemma str_compare_antisym (a b : str) :
  str_compare b a = CompOpp (str_compare a b).
Proof.
  revert b. induction a as [|x a IH]; intros [|y b]; simpl; trivial.
  rewrite (N.compare_antisym x y).
  destruct (N.compare x y); simpl; auto.
Qed.

Lemma str_compare_eq (a b : str) : str_compare a b = Eq <-> a = b.
Proof.
  revert b. induction a as [|x a IH]; intros [|y b]; simpl;
    try (split; (discriminate || reflexivity)).
  destruct (N.compare x y) eqn:E.
  - apply N.compare_eq_iff in E. subst y. rewrite IH.
    split; congruence.
  - split; [discriminate|]. intros H. injection H as -> _.
    rewrite N.compare_refl in E. discriminate.
  - split; [discriminate|]. intros H. injection H as -> _.
    rewrite N.compare_refl in E. discriminate.
Qed.

Lemma str_compare_lt_trans (a b c : str) :
  str_compare a b = Lt -> str_compare b c = Lt -> str_compare a c = Lt.
Proof.
  revert b c. induction a as [|x a IH]; intros [|y b] [|z c]; simpl;
    try discriminate; trivial.
  destruct (N.compare x y) eqn:Exy; try discriminate;
    destruct (N.compare y z) eqn:Eyz; try discriminate; intros H1 H2.
  - apply N.compare_eq_iff in Exy, Eyz. subst. rewrite N.compare_refl.
    eauto.
  - apply N.compare_eq_iff in Exy. subst. now rewrite Eyz.
  - apply N.compare_eq_iff in Eyz. subst. now rewrite Exy.
  - rewrite N.compare_lt_iff in Exy, Eyz.
    assert (E : N.compare x z = Lt) by (apply N.compare_lt_iff; lia).
    now rewrite E.
Qed.

Lemma str_leb_ltb (a b : str) : str_leb a b = negb (str_ltb b a).
Proof.
  unfold str_leb, str_ltb. rewrite (str_compare_antisym a b).
  destruct (str_compare a b); reflexivity.
Qed.

Lemma str_ltb_irrefl (a : str) : str_ltb a a = false.
Proof.
  unfold str_ltb. now rewrite (proj2 (str_compare_eq a a) eq_refl).
Qed.

Lemma str_ltb_asym (a b : str) : str_ltb a b = true -> str_ltb b a = false.
Proof.
  unfold str_ltb. rewrite (str_compare_antisym a b).
  destruct (str_compare a b); simpl; congruence.
Qed.

(** ** The result monad *)

Lemma bind_ok {A B} (m : result A) (k : A -> result B) (b : B) :
  bind m k = Ok b -> exists a, m = Ok a /\ k a = Ok b.
Proof. destruct m; simpl; [eauto | discriminate]. Qed.

Lemma ok_pair_inj {A B} (a a' : A) (b b' : B) :
  Ok (a, b) = Ok (a', b') -> a = a' /\ b = b'.
Proof. intros H. injection H. auto. Qed.

Ltac inv_bind H :=
  let x := fresh "x" in
  let E := fresh "E" in
  apply bind_ok in H; destruct H as (x & E & H).

Lemma mapM_Forall2 {A B} (f : A -> result B) (l : list A) (ys : list B) :
  mapM f l = Ok ys <-> Forall2 (fun x y => f x = Ok y) l ys.
Proof.
  revert ys. induction l as [|x l IH]; simpl; intros ys.
  - split; intros H; [injection H as <-; constructor | now inversion H].
  - split; intros H.
    + inv_bind H. inv_bind H. injection H as <-.
      constructor; [assumption | now apply IH].
    + inversion H as [|? y ? ys' Hx Hl]; subst.
      rewrite Hx. simpl. apply IH in Hl. now rewrite Hl.
Qed.

Lemma mapM_length {A B} (f : A -> result B) (l : list A) (ys : list B) :
  mapM f l = Ok ys -> length ys = length l.
Proof.
  intros H. apply mapM_Forall2 in H. symmetry.
  induction H; simpl; congruence.
Qed.

Lemma mapM_total {A B} (f : A -> result B) (l : list A) :
  Forall (fun x => exists y, f x = Ok y) l -> exists ys, mapM f l = Ok ys.
Proof.
  induction 1 as [|x l (y & Hy) _ (ys & IH)]; simpl.
  - now exists [].
  - exists (y :: ys). now rewrite Hy, IH.
Qed.

Lemma mapM_defined {A B} (f : A -> result B) (l : list A) (ys : list B) :
  mapM f l = Ok ys -> Forall (fun x => exists y, f x = Ok y) l.
Proof.
  intros H. apply mapM_Forall2 in H.
  induction H; constructor; eauto.
Qed.

Lemma mapM_ext_in {A B} (f g : A -> result B) (l : list A) :
  (forall x, In x l -> f x = g x) -> mapM f l = mapM g l.
Proof.
  induction l as [|x l IH]; simpl; intros H; trivial.
  rewrite (H x), IH by auto. reflexivity.
Qed.

Lemma filterM_pure {A} (p : A -> result bool) (q : A -> bool) (l : list A) :
  Forall (fun x => p x = Ok (q x)) l -> filterM p l = Ok (filter q l).
Proof.
  induction 1 as [|x l Hx _ IH]; simpl; trivial.
  rewrite Hx, IH. simpl. now destruct (q x).
Qed.

(** ** The stable sort *)

Section SortFacts.
Variable A : Type.
Implicit Types (x y : str * A) (l : list (str * A)) (k : str).

Lemma key_le_leb x y : key_le x y <-> str_leb (fst x) (fst y) = true.
Proof.
  unfold key_le. rewrite str_leb_ltb.
  destruct (str_ltb (fst y) (fst x)); simpl; split; congruence.
Qed.

Lemma key_le_trans x y z : key_le x y -> key_le y z -> key_le x z.
Proof.
  unfold key_le, str_ltb. intros Hxy Hyz.
  rewrite (str_compare_antisym (fst x) (fst y)) in Hxy.
  destruct (str_compare (fst z) (fst x)) eqn:Ezx; trivial.
  destruct (str_compare (fst x) (fst y)) eqn:Exy; simpl in Hxy;
    try discriminate.
  - apply str_compare_eq in Exy. rewrite <- Exy, Ezx in Hyz. discriminate.
  - rewrite (str_compare_lt_trans _ _ _ Ezx Exy) in Hyz. discriminate.
Qed.

Lemma key_le_antisym x y : key_le x y -> key_le y x -> fst x = fst y.
Proof.
  unfold key_le, str_ltb. intros Hxy Hyx.
  rewrite (str_compare_antisym (fst x) (fst y)) in Hxy.
  apply str_compare_eq.
  destruct (str_compare (fst x) (fst y)); simpl in *; congruence.
Qed.

Lemma insert_perm x l : Permutation (insert x l) (x :: l).
Proof.
  induction l as [|y l IH]; simpl; auto.
  destruct (str_ltb (fst y) (fst x)); auto.
  rewrite IH. apply perm_swap.
Qed.

Lemma stable_sort_perm l : Permutation (stable_sort l) l.
Proof.
  induction l as [|x l IH]; simpl; auto.
  rewrite insert_perm. now constructor.
Qed.

Lemma insert_hd x y l :
  key_le y x -> HdRel key_le y l -> HdRel key_le y (insert x l).
Proof.
  intros Hyx [|z l' Hyz]; simpl; [now constructor|].
  destruct (str_ltb (fst z) (fst x)); now constructor.
Qed.

Lemma insert_sorted x l : Sorted key_le l -> Sorted key_le (insert x l).
Proof.
  induction 1 as [|y l Hl IH Hy]; simpl.
  - repeat constructor.
  - destruct (str_ltb (fst y) (fst x)) eqn:E.
    + constructor; [assumption|].
      apply insert_hd; [|assumption].
      red. now apply str_ltb_asym.
    + constructor; [now constructor | now constructor].
Qed.

Lemma stable_sort_sorted l : Sorted key_le (stable_sort l).
Proof.
  induction l as [|x l IH]; simpl; [constructor | now apply insert_sorted].
Qed.

Lemma insert_filter k x l :
  filter (has_key k) (insert x l) = filter (has_key k) (x :: l).
Proof.
  induction l as [|y l IH]; trivial.
  cbn [insert]. destruct (str_ltb (fst y) (fst x)) eqn:E; trivial.
  cbn [filter] in *. rewrite IH. unfold has_key.
  destruct (str_eqb (fst x) k) eqn:Ex; trivial.
  destruct (str_eqb (fst y) k) eqn:Ey; trivial.
  apply str_eqb_eq in Ex, Ey. rewrite Ex, Ey, str_ltb_irrefl in E.
  discriminate.
Qed.

(** Stability: the elements of any one key keep their order. *)
Lemma stable_sort_filter k l :
  filter (has_key k) (stable_sort l) = filter (has_key k) l.
Proof.
  induction l as [|x l IH]; trivial.
  cbn [stable_sort fold_right]. fold (stable_sort l).
  rewrite insert_filter. cbn [filter]. now rewrite IH.
Qed.

Lemma Sorted_adjacent (R : str * A -> str * A -> Prop) pre x y post :
  Sorted R (pre ++ x :: y :: post) -> R x y.
Proof.
  induction pre as [|z pre IH]; simpl; intros H.
  - inversion H as [|? ? _ Hd]; subst. now inversion Hd.
  - inversion H; auto.
Qed.

Lemma sorted_head_least x l y :
  Sorted key_le (x :: l) -> In y (x :: l) -> key_le x y.
Proof.
  intros H Hy. apply Sorted_StronglySorted in H.
  - inversion H as [|? ? _ Hall]; subst. destruct Hy as [<-|Hy].
    + red. apply str_ltb_irrefl.
    + rewrite Forall_forall in Hall. auto.
  - intros a b c. apply key_le_trans.
Qed.

Lemma in_filter_has_key x l : In x l -> In x (filter (has_key (fst x)) l).
Proof.
  intros H. apply filter_In. split; trivial. apply str_eqb_refl.
Qed.

(** Two sorted lists that agree key by key are the same list. *)
Lemma sorted_same_filters l1 l2 :
  Sorted key_le l1 -> Sorted key_le l2 ->
  (forall k, filter (has_key k) l1 = filter (has_key k) l2) ->
  l1 = l2.
Proof.
  revert l2. induction l1 as [|x l1 IH]; intros [|y l2] S1 S2 H.
  - reflexivity.
  - specialize (H (fst y)). cbn [filter] in H. unfold has_key at 1 in H.
    rewrite str_eqb_refl in H. discriminate.
  - specialize (H (fst x)). cbn [filter] in H. unfold has_key at 1 in H.
    rewrite str_eqb_refl in H. discriminate.
  - assert (Hx : In x (y :: l2)).
    { pose proof (in_filter_has_key x (x :: l1) (or_introl eq_refl)) as I.
      rewrite H in I. now apply filter_In in I. }
    assert (Hy : In y (x :: l1)).
    { pose proof (in_filter_has_key y (y :: l2) (or_introl eq_refl)) as I.
      rewrite <- H in I. now apply filter_In in I. }
    pose proof (key_le_antisym _ _ (sorted_head_least _ _ _ S1 Hy)
                                   (sorted_head_least _ _ _ S2 Hx)) as K.
    assert (x = y) as <-.
    { specialize (H (fst x)). cbn [filter] in H.
      change (has_key (fst x) x) with (str_eqb (fst x) (fst x)) in H.
      change (has_key (fst x) y) with (str_eqb (fst y) (fst x)) in H.
      rewrite <- K, str_eqb_refl in H. congruence. }
    f_equal. apply IH.
    + now inversion S1.
    + now inversion S2.
    + intros k. specialize (H k). cbn [filter] in H.
      destruct (has_key k x); congruence.
Qed.

(** The stably sorted arrangement of [l] is unique, so [stable_sort] is
    what any stable sort returns on [l]. *)
Lemma stable_sorted_unique l out :
  Sorted key_le out ->
  (forall k, filter (has_key k) out = filter (has_key k) l) ->
  out = stable_sort l.
Proof.
  intros S H. apply sorted_same_filters; trivial.
  - apply stable_sort_sorted.
  - intros k. now rewrite H, stable_sort_filter.
Qed.
End SortFacts.

(** ** [sort_by] *)

Section SortByFacts.
Context {A : Type}.
Variable key : A -> result str.

Lemma combine_map_snd {B} (xs : list B) (ys : list A) :
  length xs = length ys -> map snd (combine xs ys) = ys.
Proof.
  revert ys. induction xs as [|x xs IH]; intros [|y ys]; simpl;
    try discriminate; trivial.
  intros H. f_equal. apply IH. congruence.
Qed.

Lemma combine_keyed (keys : list str) (l : list A) :
  mapM key l = Ok keys -> Forall (keyed key) (combine keys l).
Proof.
  intros H. apply mapM_Forall2 in H.
  induction H; simpl; constructor; trivial.
Qed.

Lemma stable_sort_keyed (keys : list str) (l : list A) :
  mapM key l = Ok keys -> Forall (keyed key) (stable_sort (combine keys l)).
Proof.
  intros H. apply combine_keyed in H. rewrite Forall_forall in *.
  intros p Hp. apply H.
  eapply Permutation_in; [apply stable_sort_perm | exact Hp].
Qed.

Lemma keyed_filter (k : str) (L : list (str * A)) :
  Forall (keyed key) L ->
  filter (key_is key k) (map snd L) = map snd (filter (has_key k) L).
Proof.
  induction 1 as [|p L Hp _ IH]; simpl; trivial.
  unfold key_is at 1. rewrite Hp. fold (has_key k p).
  destruct (has_key k p); simpl; now rewrite IH.
Qed.

Lemma sort_by_inv (l out : list A) :
  sort_by key l = Ok out ->
  exists keys, mapM key l = Ok keys
               /\ out = map snd (stable_sort (combine keys l)).
Proof.
  unfold sort_by. intros H. inv_bind H. injection H as <-. eauto.
Qed.

(** The sort returns exactly when every element has a key. *)
Lemma sort_by_total (l : list A) :
  Forall (fun x => exists k, key x = Ok k) l -> exists out, sort_by key l = Ok out.
Proof.
  intros H. destruct (mapM_total _ _ H) as (keys & Hk).
  unfold sort_by. rewrite Hk. simpl. eauto.
Qed.

Lemma sort_by_defined (l out : list A) :
  sort_by key l = Ok out -> Forall (fun x => exists k, key x = Ok k) l.
Proof.
  intros H. destruct (sort_by_inv _ _ H) as (keys & Hk & _).
  exact (mapM_defined _ _ _ Hk).
Qed.

(** It rearranges the list, *)
Lemma sort_by_perm (l out : list A) :
  sort_by key l = Ok out -> Permutation out l.
Proof.
  intros H. destruct (sort_by_inv _ _ H) as (keys & Hk & ->).
  rewrite stable_sort_perm. rewrite combine_map_snd; trivial.
  exact (mapM_length _ _ _ Hk).
Qed.

(** puts neighbours in the order of their keys, *)
Lemma sort_by_adjacent (l out pre post : list A) (a b : A) :
  sort_by key l = Ok out ->
  out = pre ++ a :: b :: post ->
  exists ka kb, key a = Ok ka /\ key b = Ok kb /\ str_leb ka kb = true.
Proof.
  intros H E. destruct (sort_by_inv _ _ H) as (keys & Hk & ->).
  pose proof (stable_sort_sorted _ (combine keys l)) as S.
  pose proof (stable_sort_keyed _ _ Hk) as K.
  destruct (map_eq_app _ _ _ _ E) as (L1 & L2 & EL & _ & E2).
  destruct (map_eq_cons _ _ E2) as (pa & L3 & -> & <- & E3).
  destruct (map_eq_cons _ _ E3) as (pb & L4 & -> & <- & _).
  rewrite EL in S, K. apply Sorted_adjacent in S. apply key_le_leb in S.
  apply Forall_app in K. destruct K as [_ K].
  apply Forall_cons_iff in K. destruct K as [Ka K].
  apply Forall_cons_iff in K. destruct K as [Kb _].
  exists (fst pa), (fst pb). auto.
Qed.

(** and keeps the elements of any one key in the order they had. *)
Lemma sort_by_stable (l out : list A) (k : str) :
  sort_by key l = Ok out ->
  filter (key_is key k) out = filter (key_is key k) l.
Proof.
  intros H. destruct (sort_by_inv _ _ H) as (keys & Hk & ->).
  rewrite keyed_filter by now apply stable_sort_keyed.
  rewrite stable_sort_filter.
  rewrite <- keyed_filter by now apply combine_keyed.
  rewrite combine_map_snd; trivial. exact (mapM_length _ _ _ Hk).
Qed.
End SortByFacts.

(** ** Membership of a string in the set of identifiers *)

Lemma py_eq_str (s : str) (v : json) : py_eq (JStr s) v = true <-> v = JStr s.
Proof.
  destruct v; simpl; try (split; (discriminate || congruence)).
  rewrite str_eqb_eq. split; congruence.
Qed.

Lemma existsb_py_eq_str (s : str) (l : pyset) :
  existsb (py_eq (JStr s)) l = true <-> In (JStr s) l.
Proof.
  rewrite existsb_exists. split.
  - intros (v & Hv & E). apply py_eq_str in E. now subst.
  - intros H. exists (JStr s). split; trivial. now apply py_eq_str.
Qed.

Lemma existsb_option_json_eqb (v : json) (l : list json) :
  existsb (option_json_eqb (Some v)) (map Some l) = true <-> In v l.
Proof.
  rewrite existsb_exists. split.
  - intros (o & Ho & E). apply in_map_iff in Ho. destruct Ho as (w & <- & Hw).
    simpl in E. destruct (json_eq_dec v w); [now subst | discriminate].
  - intros H. exists (Some v). split; [now apply in_map|].
    simpl. now destruct (json_eq_dec v v).
Qed.

(** [True == 1 == 1.0], and a string equals no number. *)
Lemma py_eq_numbers :
  py_eq (JBool true) (JInt 1) = true
  /\ py_eq (JInt 1) (JFloat (SpecFloat.S754_finite false 4503599627370496 (-52)))
     = true
  /\ py_eq (JStr (lit "1")) (JInt 1) = false.
Proof. repeat split; reflexivity. Qed.

Lemma bool_eq_iff (a b : bool) : (a = true <-> b = true) -> a = b.
Proof. destruct a, b; intuition congruence. Qed.

(** ** The literal list *)

Lemma additional_names_records : forallb is_record additional_names = true.
Proof. vm_compute. reflexivity. Qed.

Lemma is_record_inv (r : json) :
  is_record r = true ->
  exists d i n, r = JObj d /\ assoc (lit "id") d = Some (JStr i)
                /\ assoc (lit "name") d = Some (JStr n) /\ is_ascii n.
Proof.
  unfold is_record, str_id_of, str_name_of, id_of.
  destruct r as [| | | | |?|d]; try discriminate.
  destruct (assoc (lit "id") d) as [[| | | |i| |]|] eqn:Ei; try discriminate.
  destruct (assoc (lit "name") d) as [[| | | |n| |]|] eqn:En;
    try discriminate.
  intros H. exists d, i, n. split; [|split; [|split]]; trivial.
  apply Forall_forall. intros c Hc.
  rewrite forallb_forall in H. apply N.ltb_lt. auto.
Qed.

Lemma candidate_inv (n : json) :
  In n additional_names ->
  exists d i nm, n = JObj d /\ assoc (lit "id") d = Some (JStr i)
                 /\ assoc (lit "name") d = Some (JStr nm) /\ is_ascii nm.
Proof.
  intros H. apply is_record_inv.
  pose proof additional_names_records as F.
  rewrite forallb_forall in F. auto.
Qed.

Lemma candidate_well_formed (n : json) :
  In n additional_names -> well_formed n.
Proof.
  intros H. destruct (candidate_inv _ H) as (d & i & nm & E & Hi & Hn & _).
  clear H. exists d, (JStr i), nm.
  split; [exact E|]. split; [exact Hi|]. split; [reflexivity | exact Hn].
Qed.

Lemma additional_names_length : length additional_names = 57.
Proof. vm_compute. reflexivity. Qed.

Lemma distinct_NoDup (l : list str) : distinct l = true -> NoDup l.
Proof.
  induction l as [|s l IH]; simpl; intros H; constructor;
    apply andb_true_iff in H; destruct H as [H1 H2]; auto.
  intros Hin. apply negb_true_iff in H1.
  assert (E : existsb (str_eqb s) l = true).
  { apply existsb_exists. exists s. split; trivial. apply str_eqb_refl. }
  congruence.
Qed.

Lemma additional_names_ids_NoDup : NoDup (ids additional_names).
Proof.
  apply (NoDup_map_inv id_text). apply distinct_NoDup.
  vm_compute. reflexivity.
Qed.

(** ** What [merge] computes *)

Section MergeFacts.
Variable lower : str -> str.

#[local] Opaque lit.

Lemma getitem_id (r v : json) :
  getitem r (lit "id") = Ok v <-> id_of r = Some v.
Proof.
  destruct r as [| | | | | |d]; simpl; try (split; discriminate).
  destruct (assoc (lit "id") d); split; congruence.
Qed.

Lemma sort_key_inv (r : json) (k : str) :
  sort_key lower r = Ok k <->
  exists n, getitem r (lit "name") = Ok (JStr n) /\ k = lower n.
Proof.
  unfold sort_key. split.
  - intros H. inv_bind H. destruct x; try discriminate.
    injection H as <-. eauto.
  - intros (n & -> & ->). reflexivity.
Qed.

(** The set comprehension succeeds exactly on records with hashable
    identifiers, and collects those identifiers in order. *)
Lemma existing_ids_inv (C : list json) (eids : pyset) :
  existing_ids_of (JArr C) = Ok eids ->
  ids C = map Some eids /\ Forall (fun v => hashable v = true) eids.
Proof.
  unfold existing_ids_of. simpl. intros H. apply mapM_Forall2 in H.
  induction H as [|r v C eids Hr _ [IH1 IH2]]; [now split|].
  inv_bind Hr. apply getitem_id in E. unfold set_elem in Hr.
  destruct (hashable x) eqn:Hx; [|discriminate]. injection Hr as <-.
  split; [simpl; congruence | now constructor].
Qed.

(** The list comprehension keeps the candidates whose identifier is not an
    identifier of [C]. *)
Lemma new_names_of_eq (C : list json) (eids : pyset) :
  ids C = map Some eids -> new_names_of eids = Ok (novel C).
Proof.
  intros HC. unfold new_names_of, novel. apply filterM_pure.
  apply Forall_forall. intros n Hn.
  destruct (candidate_inv _ Hn) as (d & i & nm & -> & Hi & _).
  simpl. rewrite Hi. simpl. rewrite HC. do 2 f_equal.
  apply bool_eq_iff.
  now rewrite existsb_py_eq_str, existsb_option_json_eqb.
Qed.

(** Only a list gets through the concatenation. *)
Lemma merge_ok_is_list (v : json) (p : list json * list json) :
  merge lower v = Ok p -> exists C, v = JArr C.
Proof.
  unfold merge. intros H. do 3 inv_bind H.
  destruct v; try discriminate. eauto.
Qed.

Lemma merge_inv (C new all : list json) :
  merge lower (JArr C) = Ok (new, all) ->
  exists eids,
    existing_ids_of (JArr C) = Ok eids
    /\ new = novel C
    /\ sort_by (sort_key lower) (C ++ new) = Ok all.
Proof.
  unfold merge. intros H. inv_bind H. rename x into eids.
  inv_bind H. rename x into new'. inv_bind H. simpl in E1.
  injection E1 as <-. inv_bind H. injection H as <- <-.
  pose proof (existing_ids_inv _ _ E) as [HC _].
  rewrite (new_names_of_eq _ _ HC) in E0. injection E0 as <-.
  exists eids. auto.
Qed.

(** [merge] returns on every list of well-formed records, *)
Lemma merge_total (C : list json) :
  Forall well_formed C ->
  exists all, merge lower (JArr C) = Ok (novel C, all).
Proof.
  intros W.
  assert (exists eids, existing_ids_of (JArr C) = Ok eids) as (eids & He).
  { unfold existing_ids_of. simpl. apply mapM_total.
    eapply Forall_impl; [|exact W].
    intros r (d & i & n & -> & Hi & Hh & _). exists i. simpl.
    rewrite Hi. simpl. unfold set_elem. now rewrite Hh. }
  pose proof (existing_ids_inv _ _ He) as [HC _].
  destruct (sort_by_total (sort_key lower) (C ++ novel C)) as (all & Hs).
  { apply Forall_app. split.
    - eapply Forall_impl; [|exact W].
      intros r (d & i & n & -> & _ & _ & Hn). exists (lower n).
      unfold sort_key. simpl. now rewrite Hn.
    - apply Forall_forall. intros r Hr. apply filter_In in Hr.
      destruct Hr as [Hr _].
      destruct (candidate_inv _ Hr) as (d & i & n & -> & _ & Hn & _).
      exists (lower n). unfold sort_key. simpl. now rewrite Hn. }
  exists all. unfold merge. rewrite He. simpl.
  rewrite (new_names_of_eq _ _ HC). simpl. now rewrite Hs.
Qed.

(** and on no other list. *)
Lemma merge_ok_well_formed (C new all : list json) :
  merge lower (JArr C) = Ok (new, all) -> Forall well_formed C.
Proof.
  intros H. destruct (merge_inv _ _ _ H) as (eids & He & -> & Hs).
  unfold existing_ids_of in He. simpl in He.
  apply mapM_defined in He. apply sort_by_defined in Hs.
  apply Forall_app in Hs. destruct Hs as [Hk _].
  rewrite Forall_forall in *. intros r Hr.
  destruct (He r Hr) as (v & Hv). destruct (Hk r Hr) as (k & Hkey).
  inv_bind Hv. apply getitem_id in E. unfold set_elem in Hv.
  destruct (hashable x) eqn:Hh; [|discriminate].
  apply sort_key_inv in Hkey. destruct Hkey as (n & Hn & _).
  destruct r as [| | | | | |d]; try discriminate.
  simpl in E, Hn. exists d, x, n. repeat split; trivial.
  destruct (assoc (lit "name") d); congruence.
Qed.

Lemma merge_perm (C new all : list json) :
  merge lower (JArr C) = Ok (new, all) -> Permutation all (C ++ new).
Proof.
  intros H. destruct (merge_inv _ _ _ H) as (eids & _ & _ & Hs).
  exact (sort_by_perm _ _ _ Hs).
Qed.
End MergeFacts.

(** ** Consequences for the merged list *)

Lemma option_json_eqb_eq (a b : option json) :
  option_json_eqb a b = true <-> a = b.
Proof.
  destruct a as [x|], b as [y|]; simpl; try (split; congruence).
  destruct (json_eq_dec x y); split; congruence.
Qed.

Lemma existsb_option_json_eqb_In (o : option json) (l : list (option json)) :
  existsb (option_json_eqb o) l = true <-> In o l.
Proof.
  rewrite existsb_exists. split.
  - intros (x & Hx & E). apply option_json_eqb_eq in E. now subst.
  - intros H. exists o. split; trivial. now apply option_json_eqb_eq.
Qed.

Lemma novel_In (C : list json) (n : json) :
  In n (novel C) <-> In n additional_names /\ ~ In (id_of n) (ids C).
Proof.
  unfold novel. rewrite filter_In, negb_true_iff.
  rewrite <- existsb_option_json_eqb_In.
  destruct (existsb (option_json_eqb (id_of n)) (ids C));
    intuition congruence.
Qed.

Lemma novel_nil : novel [] = additional_names.
Proof.
  unfold novel. simpl. generalize additional_names as l.
  induction l as [|n l IH]; simpl; congruence.
Qed.

(** Dropping records keeps identifiers distinct. *)
Lemma ids_filter_NoDup (keep : json -> bool) (l : list json) :
  NoDup (ids l) -> NoDup (ids (filter keep l)).
Proof.
  unfold ids. induction l as [|r l IH]; simpl; intros H; trivial.
  apply NoDup_cons_iff in H. destruct H as [Hr Hl].
  destruct (keep r); simpl; auto.
  apply NoDup_cons; auto.
  rewrite in_map_iff. intros (r' & E & Hr'). apply Hr.
  rewrite <- E. apply in_map. apply filter_In in Hr'. tauto.
Qed.

Lemma novel_ids_NoDup (C : list json) : NoDup (ids (novel C)).
Proof. apply ids_filter_NoDup. exact additional_names_ids_NoDup. Qed.

Section MergedList.
Variable lower : str -> str.
Variables C new all : list json.
Hypothesis Hmerge : merge lower (JArr C) = Ok (new, all).

Lemma merged_new : new = novel C.
Proof. destruct (merge_inv _ _ _ _ Hmerge) as (? & _ & H & _). exact H. Qed.

Lemma merged_well_formed : Forall well_formed all.
Proof.
  apply Forall_forall. intros r Hr.
  apply (Permutation_in _ (merge_perm _ _ _ _ Hmerge)) in Hr.
  apply in_app_or in Hr. destruct Hr as [Hr|Hr].
  - pose proof (merge_ok_well_formed _ _ _ _ Hmerge) as W.
    rewrite Forall_forall in W. auto.
  - rewrite merged_new in Hr. apply novel_In in Hr.
    now apply candidate_well_formed.
Qed.

Lemma merged_ids_perm : Permutation (ids all) (ids C ++ ids new).
Proof.
  unfold ids. rewrite <- map_app. apply Permutation_map.
  exact (merge_perm _ _ _ _ Hmerge).
Qed.

(** Every candidate's identifier is in the merged list, *)
Lemma merged_has_candidates (n : json) :
  In n additional_names -> In (id_of n) (ids all).
Proof.
  intros Hn. apply (Permutation_in _ (Permutation_sym merged_ids_perm)).
  apply in_or_app.
  destruct (existsb (option_json_eqb (id_of n)) (ids C)) eqn:E.
  - left. now apply existsb_option_json_eqb_In.
  - right. apply in_map. rewrite merged_new. apply novel_In.
    split; trivial. rewrite <- existsb_option_json_eqb_In. congruence.
Qed.

(** so no candidate is new to it. *)
Lemma novel_merged : novel all = [].
Proof.
  unfold novel.
  assert (F : forall n, In n additional_names ->
                negb (existsb (option_json_eqb (id_of n)) (ids all)) = false).
  { intros n Hn. apply negb_false_iff, existsb_option_json_eqb_In.
    now apply merged_has_candidates. }
  revert F. generalize additional_names as l.
  induction l as [|n l IH]; simpl; intros F; trivial.
  rewrite (F n) by auto. apply IH. auto.
Qed.
End MergedList.

(** ** The examples, computed *)

Lemma sample_merge :
  merge ascii_lower (JArr sample_existing)
  = Ok (novel sample_existing, sample_merged).
Proof. vm_compute. reflexivity. Qed.

Lemma sample_merged_split :
  sample_merged
  = [] ++ nth 0 sample_merged JNull :: nth 1 sample_merged JNull
       :: skipn 2 sample_merged.
Proof. vm_compute. reflexivity. Qed.

Lemma sample_ids_NoDup : NoDup (ids sample_existing).
Proof.
  apply (NoDup_map_inv id_text). apply distinct_NoDup.
  vm_compute. reflexivity.
Qed.

Lemma ascii_lower_on_ascii : lower_on_ascii ascii_lower.
Proof. intros s _. reflexivity. Qed.

Lemma candidate_sort_key (lower : str -> str) (n : json) :
  lower_on_ascii lower -> In n additional_names ->
  sort_key lower n = sort_key ascii_lower n.
Proof.
  intros Hl Hn.
  destruct (candidate_inv _ Hn) as (d & i & nm & -> & _ & Hnm & Ha).
  unfold sort_key, getitem. rewrite Hnm. simpl. now rewrite Hl.
Qed.

(** On the empty file only the ASCII part of [lower] matters. *)
Lemma merge_empty_ext (lower : str -> str) :
  lower_on_ascii lower ->
  merge lower (JArr []) = merge ascii_lower (JArr []).
Proof.
  intros Hl. unfold merge. simpl.
  rewrite (new_names_of_eq [] [] eq_refl), novel_nil. simpl.
  unfold sort_by.
  rewrite (mapM_ext_in (sort_key lower) (sort_key ascii_lower)); trivial.
  intros n Hn. now apply candidate_sort_key.
Qed.

Lemma merge_empty_ascii :
  merge ascii_lower (JArr []) = Ok (additional_names, merged_empty).
Proof. vm_compute. reflexivity. Qed.

Lemma merge_empty (lower : str -> str) :
  lower_on_ascii lower ->
  merge lower (JArr []) = Ok (additional_names, merged_empty).
Proof. intros Hl. rewrite (merge_empty_ext _ Hl). exact merge_empty_ascii. Qed.

Lemma merged_empty_length : length merged_empty = 57.
Proof. vm_compute. reflexivity. Qed.

Lemma merged_empty_first :
  hd_error (map str_name_of merged_empty) = Some (Some (lit "Abraham")).
Proof. vm_compute. reflexivity. Qed.

Lemma merged_empty_last :
  last (map str_name_of merged_empty) None = Some (lit "Zara").
Proof. vm_compute. reflexivity. Qed.

(** ** The whole run *)

Section MainFacts.
Variable lower : str -> str.
Variable json_loads : str -> result json.
Variable json_dumps : json -> str.
Variable os_write : str -> write_outcome.
Variable os_print : str -> result unit.

Lemma load_ok_inv (s s1 : state) (v : json) :
  load json_loads s = (Ok v, s1) ->
  s1 = s /\ exists text, names_json s = Contents text
                         /\ json_loads text = Ok v.
Proof.
  unfold load. destruct (names_json s) as [| | |text]; try discriminate.
  intros H. injection H as E <-. eauto.
Qed.

Lemma load_err_inv (s s1 : state) (e : exn) :
  load json_loads s = (Err e, s1) -> s1 = s /\ unloadable json_loads s.
Proof.
  unfold load, unloadable.
  destruct (names_json s) as [| | |text];
    try (intros H; injection H as <- <-; tauto).
  intros H. injection H as E <-. split; trivial.
  right. right. right. eauto.
Qed.


(** What a run that ends well has gone through. *)
Lemma main_ok_inv (s s' : state) :
  main lower json_loads json_dumps os_write os_print s = (Ok tt, s') ->
  exists text C new all,
    names_json s = Contents text
    /\ json_loads text = Ok (JArr C)
    /\ merge lower (JArr C) = Ok (new, all)
    /\ os_write (json_dumps (JArr all)) = Written
    /\ s' = {| names_json := Contents (json_dumps (JArr all));
               stdout := stdout s
                         ++ [expanded_line (length C) (length all);
                             added_line (length new)] |}.
Proof.
  unfold main, io_bind.
  destruct (load json_loads s) as [[v|e] s1] eqn:El; try discriminate.
  apply load_ok_inv in El. destruct El as (-> & text & Hf & Hl).
  unfold lift at 1.
  destruct (merge lower v) as [[new all]|e] eqn:Em; try discriminate.
  destruct (merge_ok_is_list _ _ _ Em) as (C & ->).
  unfold dump. destruct (os_write (json_dumps (JArr all))) eqn:Ew;
    try discriminate.
  unfold lift, len, print. cbn [names_json stdout].
  destruct (os_print (expanded_line (length C) (length all)));
    try discriminate.
  cbn [names_json stdout].
  destruct (os_print (added_line (length new))); try discriminate.
  intros H. injection H as <-.
  exists text, C, new, all. rewrite <- app_assoc. auto 6.
Qed.
End MainFacts.

Lemma sample_run :
  main ascii_lower sample_loads sample_dumps sample_write sample_print sample_state
  = (Ok tt, sample_final).
Proof. vm_compute. reflexivity. Qed.

(** The run on an empty array prints the two lines with 0, 57 and 57. *)
Lemma sample_run_output :
  stdout sample_final
  = [lit "Database expanded from 0 to 57 names"; lit "Added 57 new names"].
Proof. vm_compute. reflexivity. Qed.


(** * Properties of the specification *)

(** C1: for every initial collection [C], the merged collection that the
    script goes on to write has [|C|] records plus one for every candidate
    of the literal list whose identifier is not among the identifiers of
    [C]. *)
Theorem merge_adds_the_novel_candidates
    (lower : str -> str) (C new all : list json) :
  merge lower (JArr C) = Ok (new, all) ->
  length all = length C + length (novel C).
Proof.
  intros H. destruct (merge_inv _ _ _ _ H) as (eids & _ & Hnew & Hsort).
  rewrite (Permutation_length (sort_by_perm _ _ _ Hsort)).
  rewrite length_app. now rewrite Hnew.
Qed.

Lemma merge_adds_the_novel_candidates_witness :
  merge ascii_lower (JArr sample_existing)
  = Ok (novel sample_existing, sample_merged)
  /\ length sample_merged
     = length sample_existing + length (novel sample_existing).
Proof.
  split.
  - exact sample_merge.
  - exact (merge_adds_the_novel_candidates
             ascii_lower sample_existing (novel sample_existing)
             sample_merged sample_merge).
Defined.

(** C2: every record of [C] is in the merged list as it was; the merged
    list is [C] and the new names rearranged, each new name is a candidate
    whose identifier no record of [C] has, so a record of the output that
    carries an identifier of [C] is a record of [C]. *)
Theorem merge_keeps_existing_records
    (lower : str -> str) (C new all : list json) :
  merge lower (JArr C) = Ok (new, all) ->
  Permutation all (C ++ new)
  /\ (forall n, In n new ->
        In n additional_names /\ ~ In (id_of n) (ids C))
  /\ (forall r, In r C -> In r all)
  /\ (forall r, In r all -> In (id_of r) (ids C) -> In r C).
Proof.
  intros H. pose proof (merge_perm _ _ _ _ H) as P.
  pose proof (merged_new _ _ _ _ H) as N.
  split; [exact P|]. split; [|split].
  - intros n Hn. rewrite N in Hn. now apply novel_In.
  - intros r Hr. apply (Permutation_in _ (Permutation_sym P)).
    apply in_or_app. now left.
  - intros r Hr Hid. apply (Permutation_in _ P) in Hr.
    apply in_app_or in Hr. destruct Hr as [Hr|Hr]; trivial.
    rewrite N in Hr. apply novel_In in Hr. tauto.
Qed.

Lemma merge_keeps_existing_records_witness :
  merge ascii_lower (JArr sample_existing)
  = Ok (novel sample_existing, sample_merged)
  /\ Permutation sample_merged (sample_existing ++ novel sample_existing)
  /\ (forall n, In n (novel sample_existing) ->
        In n additional_names /\ ~ In (id_of n) (ids sample_existing))
  /\ (forall r, In r sample_existing -> In r sample_merged)
  /\ (forall r, In r sample_merged ->
        In (id_of r) (ids sample_existing) -> In r sample_existing).
Proof.
  split.
  - exact sample_merge.
  - exact (merge_keeps_existing_records
             ascii_lower sample_existing (novel sample_existing)
             sample_merged sample_merge).
Defined.

(** C3: the output is sorted by display name without regard to case: for
    every adjacent pair [(a, b)] of the output,
    [lower(a.name) <= lower(b.name)]. *)
Theorem merge_sorts_by_lowercased_name
    (lower : str -> str) (C new all : list json)
    (pre post : list json) (a b : json) :
  merge lower (JArr C) = Ok (new, all) ->
  all = pre ++ a :: b :: post ->
  exists na nb,
    getitem a (lit "name") = Ok (JStr na)
    /\ getitem b (lit "name") = Ok (JStr nb)
    /\ str_leb (lower na) (lower nb) = true.
Proof.
  intros H E. destruct (merge_inv _ _ _ _ H) as (eids & _ & _ & Hsort).
  destruct (sort_by_adjacent _ _ _ _ _ _ _ Hsort E)
    as (ka & kb & Ha & Hb & Hle).
  apply sort_key_inv in Ha, Hb.
  destruct Ha as (na & Hna & ->), Hb as (nb & Hnb & ->).
  exists na, nb. auto.
Qed.

Lemma merge_sorts_by_lowercased_name_witness :
  merge ascii_lower (JArr sample_existing)
  = Ok (novel sample_existing, sample_merged)
  /\ sample_merged
     = [] ++ nth 0 sample_merged JNull :: nth 1 sample_merged JNull
          :: skipn 2 sample_merged
  /\ exists na nb,
       getitem (nth 0 sample_merged JNull) (lit "name") = Ok (JStr na)
       /\ getitem (nth 1 sample_merged JNull) (lit "name") = Ok (JStr nb)
       /\ str_leb (ascii_lower na) (ascii_lower nb) = true.
Proof.
  split; [exact sample_merge|]. split; [exact sample_merged_split|].
  exact (merge_sorts_by_lowercased_name
           ascii_lower sample_existing (novel sample_existing) sample_merged
           [] (skipn 2 sample_merged)
           (nth 0 sample_merged JNull) (nth 1 sample_merged JNull)
           sample_merge sample_merged_split).
Defined.

(** C4, as the specification counts: the merge into an empty file does not
    give 56 records. *)
Lemma merge_empty_is_not_56 :
  ~ (forall lower, lower_on_ascii lower ->
       exists new all,
         merge lower (JArr []) = Ok (new, all)
         /\ length all = length additional_names
         /\ length all = 56
         /\ hd_error (map str_name_of all) = Some (Some (lit "Abraham"))
         /\ last (map str_name_of all) None = Some (lit "Zara")).
Proof.
  intros H.
  destruct (H ascii_lower ascii_lower_on_ascii) as (new & all & Hm & _ & L & _).
  rewrite merge_empty_ascii in Hm. apply ok_pair_inj in Hm.
  destruct Hm as [_ E]. rewrite <- E, merged_empty_length in L.
  discriminate.
Qed.

(** C4, amended: merging the literal list into an empty file ([[]]) gives
    as many records as the literal has, which is 57; they are sorted by
    lower-cased display name, the first display name is "Abraham" and the
    last is "Zara". *)
Theorem merge_empty_gives_57_sorted (lower : str -> str) :
  lower_on_ascii lower ->
  exists all,
    merge lower (JArr []) = Ok (additional_names, all)
    /\ length all = length additional_names
    /\ length all = 57
    /\ (forall pre a b post, all = pre ++ a :: b :: post ->
          exists na nb,
            getitem a (lit "name") = Ok (JStr na)
            /\ getitem b (lit "name") = Ok (JStr nb)
            /\ str_leb (lower na) (lower nb) = true)
    /\ hd_error (map str_name_of all) = Some (Some (lit "Abraham"))
    /\ last (map str_name_of all) None = Some (lit "Zara").
Proof.
  intros Hl. exists merged_empty. pose proof (merge_empty _ Hl) as Hm.
  split; [exact Hm|]. split; [|split; [|split; [|split]]].
  - now rewrite merged_empty_length, additional_names_length.
  - exact merged_empty_length.
  - intros pre a b post E.
    destruct (merge_inv _ _ _ _ Hm) as (eids & _ & _ & Hsort).
    destruct (sort_by_adjacent _ _ _ _ _ _ _ Hsort E)
      as (ka & kb & Ha & Hb & Hle).
    apply sort_key_inv in Ha, Hb.
    destruct Ha as (na & Hna & ->), Hb as (nb & Hnb & ->).
    exists na, nb. auto.
  - exact merged_empty_first.
  - exact merged_empty_last.
Qed.

Lemma merge_empty_gives_57_sorted_witness :
  lower_on_ascii ascii_lower
  /\ exists all,
       merge ascii_lower (JArr []) = Ok (additional_names, all)
       /\ length all = length additional_names
       /\ length all = 57
       /\ (forall pre a b post, all = pre ++ a :: b :: post ->
             exists na nb,
               getitem a (lit "name") = Ok (JStr na)
               /\ getitem b (lit "name") = Ok (JStr nb)
               /\ str_leb (ascii_lower na) (ascii_lower nb) = true)
       /\ hd_error (map str_name_of all) = Some (Some (lit "Abraham"))
       /\ last (map str_name_of all) None = Some (lit "Zara").
Proof.
  split; [exact ascii_lower_on_ascii|].
  exact (merge_empty_gives_57_sorted ascii_lower ascii_lower_on_ascii).
Defined.

(** C5: when the identifiers of the input collection are pairwise distinct,
    so are the identifiers of the output: no two records of the written
    sequence have the same ['id']. *)
Theorem merge_keeps_identifiers_unique
    (lower : str -> str) (C new all : list json) :
  merge lower (JArr C) = Ok (new, all) ->
  NoDup (ids C) ->
  NoDup (ids all).
Proof.
  intros H HC.
  apply (Permutation_NoDup (Permutation_sym (merged_ids_perm _ _ _ _ H))).
  rewrite (merged_new _ _ _ _ H). apply NoDup_app; trivial.
  - apply novel_ids_NoDup.
  - intros o Ho Ho'. apply in_map_iff in Ho'. destruct Ho' as (n & <- & Hn).
    apply novel_In in Hn. tauto.
Qed.

Lemma merge_keeps_identifiers_unique_witness :
  merge ascii_lower (JArr sample_existing)
  = Ok (novel sample_existing, sample_merged)
  /\ NoDup (ids sample_existing)
  /\ NoDup (ids sample_merged).
Proof.
  split; [exact sample_merge|]. split; [exact sample_ids_NoDup|].
  exact (merge_keeps_identifiers_unique
           ascii_lower sample_existing (novel sample_existing) sample_merged
           sample_merge sample_ids_NoDup).
Defined.

(** C6: merging the result of a merge once more returns, inserts no
    candidate a second time, and gives a collection of the same size. *)
Theorem merge_twice_same_size
    (lower : str -> str) (C new all : list json) :
  merge lower (JArr C) = Ok (new, all) ->
  exists new2 all2,
    merge lower (JArr all) = Ok (new2, all2)
    /\ new2 = []
    /\ length all2 = length all.
Proof.
  intros H.
  destruct (merge_total lower all (merged_well_formed _ _ _ _ H))
    as (all2 & H2).
  rewrite (novel_merged _ _ _ _ H) in H2.
  exists [], all2. split; [exact H2|]. split; [reflexivity|].
  rewrite (Permutation_length (merge_perm _ _ _ _ H2)).
  now rewrite app_nil_r.
Qed.

Lemma merge_twice_same_size_witness :
  merge ascii_lower (JArr sample_existing)
  = Ok (novel sample_existing, sample_merged)
  /\ exists new2 all2,
       merge ascii_lower (JArr sample_merged) = Ok (new2, all2)
       /\ new2 = []
       /\ length all2 = length sample_merged.
Proof.
  split; [exact sample_merge|].
  exact (merge_twice_same_size
           ascii_lower sample_existing (novel sample_existing) sample_merged
           sample_merge).
Defined.

(** C7: the sort is stable over the concatenation of the existing records
    followed by the new ones: for every key, the records of the output
    whose lower-cased display name is that key are, in the same order, the
    records of the concatenation with that key. *)
Theorem merge_sort_is_stable
    (lower : str -> str) (C new all : list json) (k : str) :
  merge lower (JArr C) = Ok (new, all) ->
  filter (key_is (sort_key lower) k) all
  = filter (key_is (sort_key lower) k) (C ++ new).
Proof.
  intros H. destruct (merge_inv _ _ _ _ H) as (eids & _ & _ & Hsort).
  exact (sort_by_stable _ _ _ k Hsort).
Qed.

Lemma merge_sort_is_stable_witness :
  merge ascii_lower (JArr sample_existing)
  = Ok (novel sample_existing, sample_merged)
  /\ filter (key_is (sort_key ascii_lower) (lit "aiden")) sample_merged
     = filter (key_is (sort_key ascii_lower) (lit "aiden"))
              (sample_existing ++ novel sample_existing).
Proof.
  split; [exact sample_merge|].
  exact (merge_sort_is_stable
           ascii_lower sample_existing (novel sample_existing) sample_merged
           (lit "aiden") sample_merge).
Defined.

(** The recogniser on small texts: arrays, objects, numbers and strings
    are JSON documents; [NaN], a trailing comma and a leading zero are
    not. *)
Lemma valid_json_examples :
  map valid_json
      [lit "[]"; lit " [1, -2.5e3, true, null, {}] "; lit "{}";
       lit "[" ++ [34%N] ++ lit "ava" ++ [34%N] ++ lit "]";
       lit "NaN"; lit "[NaN]"; lit "[1,]"; lit "01"; lit ""]
  = [true; true; true; true; false; false; false; false; false].
Proof. vm_compute. reflexivity. Qed.




(** C9: a run that ends without an error has printed two lines, the first
    with the size of the loaded collection and the size of the written
    one, the second with their difference. *)
Theorem main_prints_two_lines
    (lower : str -> str) (json_loads : str -> result json)
    (json_dumps : json -> str) (os_write : str -> write_outcome)
    (os_print : str -> result unit)
    (s s' : state) :
  main lower json_loads json_dumps os_write os_print s = (Ok tt, s') ->
  exists text C new all,
    names_json s = Contents text
    /\ json_loads text = Ok (JArr C)
    /\ merge lower (JArr C) = Ok (new, all)
    /\ names_json s' = Contents (json_dumps (JArr all))
    /\ stdout s'
       = stdout s
         ++ [lit "Database expanded from " ++ format_nat (length C)
               ++ lit " to " ++ format_nat (length all) ++ lit " names";
             lit "Added " ++ format_nat (length all - length C)
               ++ lit " new names"].
Proof.
  intros H. apply main_ok_inv in H.
  destruct H as (text & C & new & all & Hf & Hl & Hm & _ & ->).
  exists text, C, new, all. repeat (split; trivial).
  cbn [stdout]. unfold expanded_line, added_line. repeat f_equal.
  rewrite (Permutation_length (merge_perm _ _ _ _ Hm)), length_app. lia.
Qed.

Lemma main_prints_two_lines_witness :
  main ascii_lower sample_loads sample_dumps sample_write sample_print sample_state
  = (Ok tt, sample_final)
  /\ exists text C new all,
       names_json sample_state = Contents text
       /\ sample_loads text = Ok (JArr C)
       /\ merge ascii_lower (JArr C) = Ok (new, all)
       /\ names_json sample_final = Contents (sample_dumps (JArr all))
       /\ stdout sample_final
          = stdout sample_state
            ++ [lit "Database expanded from " ++ format_nat (length C)
                  ++ lit " to " ++ format_nat (length all) ++ lit " names";
                lit "Added " ++ format_nat (length all - length C)
                  ++ lit " new names"].
Proof.
  split; [exact sample_run|].
  exact (main_prints_two_lines
           ascii_lower sample_loads sample_dumps sample_write sample_print
           sample_state sample_final sample_run).
Defined.

(** C10: the identifiers of the literal list are pairwise distinct, so the
    merge into an empty collection, which takes every candidate, returns a
    collection with pairwise distinct identifiers. *)
Theorem candidate_identifiers_are_distinct :
  NoDup (ids additional_names)
  /\ forall lower, exists all,
       merge lower (JArr []) = Ok (additional_names, all)
       /\ NoDup (ids all).
Proof.
  split; [exact additional_names_ids_NoDup|]. intros lower.
  destruct (merge_total lower [] (Forall_nil _)) as (all & H).
  rewrite novel_nil in H. exists all. split; [exact H|].
  apply (Permutation_NoDup (Permutation_sym (merged_ids_perm _ _ _ _ H))).
  exact additional_names_ids_NoDup.
Qed.

(** * Further properties of the code *)

(** ** When [merge] raises *)

Lemma bind_Ok {A B} (a : A) (k : A -> result B) : bind (Ok a) k = k a.
Proof. reflexivity. Qed.

Lemma mapM_first_error {A B} (f : A -> result B) (pre post : list A)
    (r : A) (e : exn) :
  Forall (fun x => exists y, f x = Ok y) pre -> f r = Err e ->
  mapM f (pre ++ r :: post) = Err e.
Proof.
  intros Hpre Hr. induction Hpre as [|x pre (y & Hx) _ IH]; simpl.
  - now rewrite Hr.
  - now rewrite Hx, IH.
Qed.

Section RecordErrors.
Variable lower : str -> str.

#[local] Opaque lit.

(** [name['id']] followed by the hashing of the value, as the set
    comprehension does it. *)
Lemma id_step_ok (r : json) :
  id_error r = None ->
  exists v, (v <- getitem r (lit "id") ;; set_elem v) = Ok v.
Proof.
  unfold id_error, getitem, set_elem. destruct r as [| | | | | |d];
    try discriminate.
  destruct (assoc (lit "id") d) as [v|]; try discriminate. simpl.
  destruct (hashable v); try discriminate. eauto.
Qed.

Lemma id_step_err (r : json) (e : exn) :
  id_error r = Some e ->
  (v <- getitem r (lit "id") ;; set_elem v) = Err e.
Proof.
  unfold id_error, getitem, set_elem. destruct r as [| | | | | |d];
    try (intros H; injection H as <-; reflexivity).
  destruct (assoc (lit "id") d) as [v|]; simpl.
  - destruct (hashable v); [discriminate | congruence].
  - congruence.
Qed.

Lemma name_step_ok (r : json) :
  name_error r = None -> exists k, sort_key lower r = Ok k.
Proof.
  unfold name_error, sort_key, getitem. destruct r as [| | | | | |d];
    try discriminate.
  destruct (assoc (lit "name") d) as [[| | | |n| |]|]; try discriminate.
  simpl. eauto.
Qed.

Lemma name_step_err (r : json) (e : exn) :
  name_error r = Some e -> sort_key lower r = Err e.
Proof.
  unfold name_error, sort_key, getitem. destruct r as [| | | | | |d];
    try (intros H; injection H as <-; reflexivity).
  destruct (assoc (lit "name") d) as [[| | | |n| |]|]; simpl;
    (discriminate || congruence).
Qed.

Lemma no_id_error_ids (C : list json) :
  Forall (fun x => id_error x = None) C ->
  exists eids, existing_ids_of (JArr C) = Ok eids.
Proof.
  intros H. unfold existing_ids_of. simpl. apply mapM_total.
  eapply Forall_impl; [|exact H]. intros r Hr. now apply id_step_ok.
Qed.
End RecordErrors.

(** X1: [merge] returns on a list exactly when every record of it is a
    dict with a hashable ['id'] and a [str] under ['name']. *)
Theorem merge_returns_iff_well_formed (lower : str -> str) (C : list json) :
  (exists new all, merge lower (JArr C) = Ok (new, all))
  <-> Forall well_formed C.
Proof.
  split.
  - intros (new & all & H). exact (merge_ok_well_formed _ _ _ _ H).
  - intros W. destruct (merge_total lower C W) as (all & H). eauto.
Qed.

(** X2: the set comprehension stops at the first record whose identifier
    cannot be taken: with sound records before it, a record that is not a
    dict makes the merge raise [TypeError], a dict without ['id']
    [KeyError], an identifier that is a list or a dict [TypeError]. *)
Theorem bad_identifier_raises
    (lower : str -> str) (pre post : list json) (r : json) (e : exn) :
  Forall (fun x => id_error x = None) pre ->
  id_error r = Some e ->
  merge lower (JArr (pre ++ r :: post)) = Err e.
Proof.
  intros Hpre Hr. unfold merge, existing_ids_of. simpl.
  rewrite (mapM_first_error _ pre post r e); trivial.
  - eapply Forall_impl; [|exact Hpre]. intros x Hx. now apply id_step_ok.
  - now apply id_step_err.
Qed.

Lemma bad_identifier_raises_witness :
  Forall (fun x => id_error x = None) [nth 0 sample_existing JNull]
  /\ id_error (JObj [(lit "name", JStr (lit "Ann"))]) = Some KeyError
  /\ merge ascii_lower (JArr sample_no_id) = Err KeyError.
Proof.
  assert (H1 : Forall (fun x => id_error x = None)
                      [nth 0 sample_existing JNull])
    by (repeat constructor).
  assert (H2 : id_error (JObj [(lit "name", JStr (lit "Ann"))])
               = Some KeyError) by reflexivity.
  split; [exact H1|]. split; [exact H2|].
  exact (bad_identifier_raises ascii_lower
           [nth 0 sample_existing JNull] []
           (JObj [(lit "name", JStr (lit "Ann"))]) KeyError H1 H2).
Defined.

(** X3: when every identifier can be taken, the sort stops at the first
    record whose key cannot be computed: with sound records before it, a
    dict without ['name'] makes the merge raise [KeyError], a name that is
    not a [str] [AttributeError]. *)
Theorem bad_name_raises
    (lower : str -> str) (pre post : list json) (r : json) (e : exn) :
  Forall (fun x => id_error x = None) (pre ++ r :: post) ->
  Forall (fun x => name_error x = None) pre ->
  name_error r = Some e ->
  merge lower (JArr (pre ++ r :: post)) = Err e.
Proof.
  intros Hid Hpre Hr.
  destruct (no_id_error_ids _ Hid) as (eids & He).
  pose proof (existing_ids_inv _ _ He) as [HC _].
  unfold merge. rewrite He. simpl.
  rewrite (new_names_of_eq _ _ HC). simpl. unfold sort_by.
  rewrite <- app_assoc. simpl.
  rewrite (mapM_first_error _ pre _ r e); trivial.
  - eapply Forall_impl; [|exact Hpre]. intros x Hx.
    now apply name_step_ok.
  - now apply name_step_err.
Qed.

Lemma bad_name_raises_witness :
  Forall (fun x => id_error x = None) sample_no_name
  /\ Forall (fun x => name_error x = None) [nth 0 sample_existing JNull]
  /\ name_error (JObj [(lit "id", JStr (lit "ann"))]) = Some KeyError
  /\ merge ascii_lower (JArr sample_no_name) = Err KeyError.
Proof.
  assert (H1 : Forall (fun x => id_error x = None) sample_no_name)
    by (repeat constructor).
  assert (H2 : Forall (fun x => name_error x = None)
                      [nth 0 sample_existing JNull])
    by (repeat constructor).
  assert (H3 : name_error (JObj [(lit "id", JStr (lit "ann"))])
               = Some KeyError) by reflexivity.
  split; [exact H1|]. split; [exact H2|]. split; [exact H3|].
  exact (bad_name_raises ascii_lower
           [nth 0 sample_existing JNull] []
           (JObj [(lit "id", JStr (lit "ann"))]) KeyError H1 H2 H3).
Defined.

(** A loaded value that is not a list does not get through: iterating
    it, subscripting what the iteration gives, or adding the list of new
    names to it raises [TypeError]. *)
Lemma existing_ids_of_non_list (v : json) :
  (forall C, v <> JArr C) ->
  existing_ids_of v = Err TypeError \/ existing_ids_of v = Ok [].
Proof.
  intros Hv. destruct v as [| | | |s|C|d]; try (left; reflexivity).
  - destruct s as [|c s]; [right | left]; reflexivity.
  - exfalso. exact (Hv C eq_refl).
  - destruct d as [|kv d]; [right | left]; reflexivity.
Qed.

Lemma list_add_non_list (v : json) (l : list json) :
  (forall C, v <> JArr C) -> list_add v l = Err TypeError.
Proof.
  intros Hv. destruct v; try reflexivity. exfalso. exact (Hv l0 eq_refl).
Qed.

Lemma merge_non_list (lower : str -> str) (v : json) :
  (forall C, v <> JArr C) -> merge lower v = Err TypeError.
Proof.
  intros Hv. unfold merge.
  destruct (existing_ids_of_non_list v Hv) as [E|E]; rewrite E.
  - reflexivity.
  - rewrite bind_Ok, (new_names_of_eq [] [] eq_refl), bind_Ok.
    now rewrite (list_add_non_list v (novel []) Hv).
Qed.

(** ** Runs that fail, runs that succeed *)

(** X4: when the file holds a JSON document that is not an array (an
    object, a string, a number, [true], [false] or [null]), the merge
    raises [TypeError] and the run ends with it, the file and the terminal
    as they were. *)
Theorem non_array_document_is_a_type_error
    (lower : str -> str) (json_loads : str -> result json)
    (json_dumps : json -> str) (os_write : str -> write_outcome)
    (os_print : str -> result unit)
    (s : state) (text : str) (v : json) :
  names_json s = Contents text ->
  json_loads text = Ok v ->
  (forall C, v <> JArr C) ->
  merge lower v = Err TypeError
  /\ main lower json_loads json_dumps os_write os_print s = (Err TypeError, s).
Proof.
  intros Hf Hl Hv. pose proof (merge_non_list lower v Hv) as Hm.
  split; [exact Hm|].
  unfold main, io_bind, load. rewrite Hf, Hl. unfold lift.
  now rewrite Hm.
Qed.

Lemma non_array_document_is_a_type_error_witness :
  names_json sample_state = Contents (lit "[]")
  /\ const_loads (JObj []) (lit "[]") = Ok (JObj [])
  /\ (forall C, JObj [] <> JArr C)
  /\ merge ascii_lower (JObj []) = Err TypeError
  /\ main ascii_lower (const_loads (JObj [])) sample_dumps sample_write sample_print
          sample_state
     = (Err TypeError, sample_state).
Proof.
  assert (H : forall C, JObj [] <> JArr C) by (intros C; discriminate).
  split; [reflexivity|]. split; [reflexivity|]. split; [exact H|].
  exact (non_array_document_is_a_type_error
           ascii_lower (const_loads (JObj [])) sample_dumps sample_write sample_print
           sample_state (lit "[]") (JObj []) eq_refl eq_refl H).
Defined.

(** ** More on [sort_by] *)

Lemma str_leb_antisym (a b : str) :
  str_leb a b = true -> str_leb b a = true -> a = b.
Proof.
  unfold str_leb. rewrite (str_compare_antisym a b). intros H1 H2.
  apply str_compare_eq.
  destruct (str_compare a b); simpl in *; congruence.
Qed.

Section SortedLists.
Variable A : Type.
Implicit Types (L M : list (str * A)).

Lemma stable_sort_strongly_sorted L :
  StronglySorted key_le (stable_sort L).
Proof.
  apply Sorted_StronglySorted; [|apply stable_sort_sorted].
  intros x y z. apply key_le_trans.
Qed.

Lemma strongly_sorted_suffix L M :
  StronglySorted (@key_le A) (L ++ M) -> StronglySorted key_le M.
Proof.
  induction L as [|x L IH]; simpl; trivial.
  intros H. apply IH. now inversion H.
Qed.

(** Sorting a sorted list changes nothing. *)
Lemma stable_sort_fixed L : Sorted key_le L -> stable_sort L = L.
Proof.
  induction 1 as [|x L HL IH Hx]; trivial.
  cbn [stable_sort fold_right]. fold (stable_sort L). rewrite IH.
  destruct Hx as [|y L' Hxy]; trivial.
  cbn [insert]. red in Hxy. now rewrite Hxy.
Qed.

Lemma unzip_zip L : combine (map fst L) (map snd L) = L.
Proof.
  induction L as [|[k r] L IH]; simpl; congruence.
Qed.
End SortedLists.

Section SortByOrder.
Context {A : Type}.
Variable key : A -> result str.

Lemma keyed_keys (L : list (str * A)) :
  Forall (keyed key) L -> mapM key (map snd L) = Ok (map fst L).
Proof.
  induction 1 as [|p L Hp _ IH]; simpl; trivial.
  red in Hp. now rewrite Hp, IH.
Qed.

(** Sorting the output of a sort gives it back. *)
Lemma sort_by_fixed (l out : list A) :
  sort_by key l = Ok out -> sort_by key out = Ok out.
Proof.
  intros H. destruct (sort_by_inv _ _ _ H) as (keys & Hk & ->).
  pose proof (stable_sort_keyed _ _ _ Hk) as K.
  unfold sort_by at 1. rewrite (keyed_keys _ K). rewrite bind_Ok.
  rewrite unzip_zip. rewrite stable_sort_fixed; trivial.
  apply stable_sort_sorted.
Qed.

(** Any two elements of the output, not only neighbours, are in the order
    of their keys. *)
Lemma sort_by_ordered (l out l1 l2 l3 : list A) (a b : A) :
  sort_by key l = Ok out ->
  out = l1 ++ a :: l2 ++ b :: l3 ->
  key_leq key a b.
Proof.
  intros H E. destruct (sort_by_inv _ _ _ H) as (keys & Hk & ->).
  pose proof (stable_sort_strongly_sorted _ (combine keys l)) as S.
  pose proof (stable_sort_keyed _ _ _ Hk) as K.
  destruct (map_eq_app _ _ _ _ E) as (L1 & M & EL & _ & E2).
  destruct (map_eq_cons _ _ E2) as (pa & M2 & -> & <- & E3).
  destruct (map_eq_app _ _ _ _ E3) as (L2 & M3 & -> & _ & E4).
  destruct (map_eq_cons _ _ E4) as (pb & L3 & -> & <- & _).
  rewrite EL in S, K. apply strongly_sorted_suffix in S.
  apply StronglySorted_inv in S. destruct S as [_ S].
  rewrite Forall_app in S. destruct S as [_ S].
  apply Forall_inv in S. apply key_le_leb in S.
  rewrite Forall_app in K. destruct K as [_ K].
  pose proof (Forall_inv K) as Ka. apply Forall_inv_tail in K.
  rewrite Forall_app in K. destruct K as [_ K]. apply Forall_inv in K.
  exists (fst pa), (fst pb). auto.
Qed.

(** *** The output is the only sorted and stable arrangement *)

Lemma decorate_keyed (L : list (str * A)) :
  Forall (keyed key) L -> map (decorate key) (map snd L) = L.
Proof.
  induction 1 as [|[k r] L Hp _ IH]; simpl; trivial.
  red in Hp. simpl in Hp. unfold decorate at 1. rewrite Hp. congruence.
Qed.

Lemma decorate_combine (keys : list str) (l : list A) :
  mapM key l = Ok keys -> combine keys l = map (decorate key) l.
Proof.
  intros H. apply mapM_Forall2 in H.
  induction H as [|r k l keys Hr _ IH]; simpl; trivial.
  unfold decorate at 1. rewrite Hr. congruence.
Qed.

Lemma decorate_filter (k : str) (l : list A) :
  Forall (fun r => exists k', key r = Ok k') l ->
  filter (has_key k) (map (decorate key) l)
  = map (decorate key) (filter (key_is key k) l).
Proof.
  induction 1 as [|r l (k' & Hr) _ IH]; simpl; trivial.
  unfold has_key at 1, key_is at 1, decorate at 1. rewrite Hr. simpl.
  destruct (str_eqb k' k); simpl; now rewrite IH.
Qed.

Lemma decorate_sorted (l : list A) :
  (forall pre a b post, l = pre ++ a :: b :: post -> key_leq key a b) ->
  Sorted key_le (map (decorate key) l).
Proof.
  induction l as [|a l IH]; intros S; simpl; constructor.
  - apply IH. intros pre x y post E. apply (S (a :: pre) x y post).
    simpl. now rewrite E.
  - destruct l as [|b l]; simpl; constructor.
    destruct (S [] a b l eq_refl) as (ka & kb & Ha & Hb & Hle).
    apply key_le_leb. unfold decorate. simpl. now rewrite Ha, Hb.
Qed.

Lemma sort_by_unique (l out out' : list A) :
  sort_by key l = Ok out ->
  Forall (fun r => exists k, key r = Ok k) out' ->
  (forall pre a b post, out' = pre ++ a :: b :: post -> key_leq key a b) ->
  (forall k, filter (key_is key k) out' = filter (key_is key k) l) ->
  out' = out.
Proof.
  intros H D S F. pose proof (sort_by_defined _ _ _ H) as Dl.
  destruct (sort_by_inv _ _ _ H) as (keys & Hk & ->).
  pose proof (stable_sort_keyed _ _ _ Hk) as K.
  assert (E : map (decorate key) out' = stable_sort (combine keys l)).
  { apply sorted_same_filters.
    - now apply decorate_sorted.
    - apply stable_sort_sorted.
    - intros k. rewrite stable_sort_filter, (decorate_combine _ _ Hk).
      rewrite !decorate_filter by assumption. now rewrite F. }
  rewrite <- E. rewrite map_map. simpl. now rewrite map_id.
Qed.
End SortByOrder.

(** ** More on the merged list *)

Lemma sample_ties_merge :
  merge ascii_lower (JArr sample_ties)
  = Ok (novel sample_ties, sample_ties_merged).
Proof. vm_compute. reflexivity. Qed.

Lemma sample_ties_split :
  sample_ties_merged
  = firstn 1 sample_ties_merged
    ++ nth 1 sample_ties_merged JNull
    :: [nth 2 sample_ties_merged JNull]
    ++ nth 3 sample_ties_merged JNull :: skipn 4 sample_ties_merged.
Proof. vm_compute. reflexivity. Qed.

Lemma sample_ties_first :
  sort_key ascii_lower (nth 1 sample_ties_merged JNull) = Ok (lit "aiden").
Proof. vm_compute. reflexivity. Qed.

Lemma sample_ties_last :
  sort_key ascii_lower (nth 3 sample_ties_merged JNull) = Ok (lit "aiden").
Proof. vm_compute. reflexivity. Qed.

Lemma sample_merged_split3 :
  sample_merged
  = [] ++ nth 0 sample_merged JNull
    :: [nth 1 sample_merged JNull]
    ++ nth 2 sample_merged JNull :: skipn 3 sample_merged.
Proof. vm_compute. reflexivity. Qed.

Lemma novel_length (C : list json) :
  length (novel C) <= length additional_names.
Proof.
  unfold novel. generalize additional_names as l.
  induction l as [|n l IH]; simpl; trivial.
  destruct (negb _); simpl; lia.
Qed.

Lemma well_formed_key (lower : str -> str) (r : json) :
  well_formed r -> exists k, sort_key lower r = Ok k.
Proof.
  intros (d & i & n & -> & _ & _ & Hn). exists (lower n).
  unfold sort_key, getitem. now rewrite Hn.
Qed.

Section MergedAgain.
Variable lower : str -> str.
Variables C new all : list json.
Hypothesis Hmerge : merge lower (JArr C) = Ok (new, all).

Lemma merged_sort : sort_by (sort_key lower) (C ++ new) = Ok all.
Proof. destruct (merge_inv _ _ _ _ Hmerge) as (? & _ & _ & H). exact H. Qed.

(** Merging the merged list gives it back and adds nothing. *)
Lemma merged_again : merge lower (JArr all) = Ok ([], all).
Proof.
  destruct (merge_total lower all (merged_well_formed _ _ _ _ Hmerge))
    as (all2 & H2).
  rewrite (novel_merged _ _ _ _ Hmerge) in H2.
  destruct (merge_inv _ _ _ _ H2) as (eids & _ & _ & Hs).
  rewrite app_nil_r, (sort_by_fixed _ _ _ merged_sort) in Hs.
  injection Hs as <-. exact H2.
Qed.
End MergedAgain.

(** X7: the merge is idempotent: merging the output of a merge returns the
    same list, in the same order, and no new name. *)
Theorem merge_is_idempotent
    (lower : str -> str) (C new all : list json) :
  merge lower (JArr C) = Ok (new, all) ->
  merge lower (JArr all) = Ok ([], all).
Proof. intros H. exact (merged_again _ _ _ _ H). Qed.

Lemma merge_is_idempotent_witness :
  merge ascii_lower (JArr sample_existing)
  = Ok (novel sample_existing, sample_merged)
  /\ merge ascii_lower (JArr sample_merged) = Ok ([], sample_merged).
Proof.
  split; [exact sample_merge|].
  exact (merge_is_idempotent
           ascii_lower sample_existing (novel sample_existing) sample_merged
           sample_merge).
Defined.

(** X8: the identifiers of the output are the identifiers of the input
    together with the identifiers of the literal list. *)
Theorem merged_identifiers
    (lower : str -> str) (C new all : list json) (o : option json) :
  merge lower (JArr C) = Ok (new, all) ->
  In o (ids all) <-> In o (ids C) \/ In o (ids additional_names).
Proof.
  intros H. pose proof (merged_ids_perm _ _ _ _ H) as P. split.
  - intros Ho. apply (Permutation_in _ P) in Ho.
    apply in_app_or in Ho. destruct Ho as [Ho|Ho]; [now left|right].
    unfold ids in *. apply in_map_iff in Ho.
    destruct Ho as (n & <- & Hn). apply in_map.
    rewrite (merged_new _ _ _ _ H) in Hn. now apply novel_In in Hn.
  - intros [Ho|Ho].
    + apply (Permutation_in _ (Permutation_sym P)). apply in_or_app.
      now left.
    + unfold ids in Ho. apply in_map_iff in Ho.
      destruct Ho as (n & <- & Hn).
      exact (merged_has_candidates _ _ _ _ H n Hn).
Qed.

Lemma merged_identifiers_witness :
  merge ascii_lower (JArr sample_existing)
  = Ok (novel sample_existing, sample_merged)
  /\ (In (Some (JStr (lit "zed"))) (ids sample_merged)
      <-> In (Some (JStr (lit "zed"))) (ids sample_existing)
          \/ In (Some (JStr (lit "zed"))) (ids additional_names)).
Proof.
  split; [exact sample_merge|].
  exact (merged_identifiers
           ascii_lower sample_existing (novel sample_existing) sample_merged
           (Some (JStr (lit "zed"))) sample_merge).
Defined.

(** X9: [new_names] is the literal list with the candidates dropped
    whose identifier a record of the input has, in the order of the
    literal: a candidate is added exactly when its identifier is new. *)
Theorem new_names_are_the_novel_candidates
    (lower : str -> str) (C new all : list json) :
  merge lower (JArr C) = Ok (new, all) ->
  new = filter (fun n => negb (existsb (option_json_eqb (id_of n)) (ids C)))
               additional_names
  /\ forall n, In n new <->
               In n additional_names /\ ~ In (id_of n) (ids C).
Proof.
  intros H. pose proof (merged_new _ _ _ _ H) as N. split.
  - exact N.
  - intros n. rewrite N. apply novel_In.
Qed.

Lemma new_names_are_the_novel_candidates_witness :
  merge ascii_lower (JArr sample_existing)
  = Ok (novel sample_existing, sample_merged)
  /\ novel sample_existing
     = filter (fun n => negb (existsb (option_json_eqb (id_of n))
                                      (ids sample_existing)))
              additional_names
  /\ forall n, In n (novel sample_existing) <->
               In n additional_names
               /\ ~ In (id_of n) (ids sample_existing).
Proof.
  split; [exact sample_merge|].
  exact (new_names_are_the_novel_candidates
           ascii_lower sample_existing (novel sample_existing) sample_merged
           sample_merge).
Defined.

(** X10: the output is sorted throughout: of any two records of the
    output, the earlier one has the smaller or equal lower-cased display
    name. *)
Theorem merge_orders_every_pair
    (lower : str -> str) (C new all l1 l2 l3 : list json) (a b : json) :
  merge lower (JArr C) = Ok (new, all) ->
  all = l1 ++ a :: l2 ++ b :: l3 ->
  exists na nb,
    getitem a (lit "name") = Ok (JStr na)
    /\ getitem b (lit "name") = Ok (JStr nb)
    /\ str_leb (lower na) (lower nb) = true.
Proof.
  intros H E.
  destruct (sort_by_ordered _ _ _ _ _ _ _ _ (merged_sort _ _ _ _ H) E)
    as (ka & kb & Ha & Hb & Hle).
  apply sort_key_inv in Ha, Hb.
  destruct Ha as (na & Hna & ->), Hb as (nb & Hnb & ->).
  exists na, nb. auto.
Qed.

Lemma merge_orders_every_pair_witness :
  merge ascii_lower (JArr sample_existing)
  = Ok (novel sample_existing, sample_merged)
  /\ sample_merged
     = [] ++ nth 0 sample_merged JNull
       :: [nth 1 sample_merged JNull]
       ++ nth 2 sample_merged JNull :: skipn 3 sample_merged
  /\ exists na nb,
       getitem (nth 0 sample_merged JNull) (lit "name") = Ok (JStr na)
       /\ getitem (nth 2 sample_merged JNull) (lit "name") = Ok (JStr nb)
       /\ str_leb (ascii_lower na) (ascii_lower nb) = true.
Proof.
  split; [exact sample_merge|]. split; [exact sample_merged_split3|].
  exact (merge_orders_every_pair
           ascii_lower sample_existing (novel sample_existing) sample_merged
           [] [nth 1 sample_merged JNull] (skipn 3 sample_merged)
           (nth 0 sample_merged JNull) (nth 2 sample_merged JNull)
           sample_merge sample_merged_split3).
Defined.

(** X11: records whose display names differ only by case are next to each
    other: every record of the output between two records with the same
    key has that key. *)
Theorem equal_names_are_contiguous
    (lower : str -> str) (C new all l1 l2 l3 : list json) (a c : json)
    (k : str) :
  merge lower (JArr C) = Ok (new, all) ->
  all = l1 ++ a :: l2 ++ c :: l3 ->
  sort_key lower a = Ok k ->
  sort_key lower c = Ok k ->
  Forall (fun b => sort_key lower b = Ok k) l2.
Proof.
  intros H E Ha Hc. pose proof (merged_sort _ _ _ _ H) as Hs.
  apply Forall_forall. intros b Hb.
  destruct (in_split _ _ Hb) as (m1 & m2 & ->).
  assert (E1 : all = l1 ++ a :: m1 ++ b :: (m2 ++ c :: l3)).
  { rewrite E. now rewrite <- app_assoc. }
  assert (E2 : all = (l1 ++ a :: m1) ++ b :: m2 ++ c :: l3).
  { rewrite E. rewrite <- !app_assoc. reflexivity. }
  destruct (sort_by_ordered _ _ _ _ _ _ _ _ Hs E1)
    as (ka & kb & Ha' & Hb' & Hab).
  destruct (sort_by_ordered _ _ _ _ _ _ _ _ Hs E2)
    as (kb' & kc & Hb'' & Hc' & Hbc).
  assert (ka = k) by congruence. assert (kc = k) by congruence.
  assert (kb' = kb) by congruence. subst.
  rewrite Hb'. f_equal. now apply str_leb_antisym.
Qed.

Lemma equal_names_are_contiguous_witness :
  merge ascii_lower (JArr sample_ties)
  = Ok (novel sample_ties, sample_ties_merged)
  /\ sort_key ascii_lower (nth 1 sample_ties_merged JNull)
     = Ok (lit "aiden")
  /\ sort_key ascii_lower (nth 3 sample_ties_merged JNull)
     = Ok (lit "aiden")
  /\ Forall (fun b => sort_key ascii_lower b = Ok (lit "aiden"))
            [nth 2 sample_ties_merged JNull].
Proof.
  split; [exact sample_ties_merge|]. split; [exact sample_ties_first|].
  split; [exact sample_ties_last|].
  exact (equal_names_are_contiguous
           ascii_lower sample_ties (novel sample_ties) sample_ties_merged
           (firstn 1 sample_ties_merged) [nth 2 sample_ties_merged JNull]
           (skipn 4 sample_ties_merged)
           (nth 1 sample_ties_merged JNull) (nth 3 sample_ties_merged JNull)
           (lit "aiden") sample_ties_merge sample_ties_split
           sample_ties_first sample_ties_last).
Defined.

(** X12: the merge removes no record and adds at most the 57 of the
    literal list. *)
Theorem merge_size_bounds
    (lower : str -> str) (C new all : list json) :
  merge lower (JArr C) = Ok (new, all) ->
  length C <= length all <= length C + 57.
Proof.
  intros H. rewrite (Permutation_length (merge_perm _ _ _ _ H)).
  rewrite length_app, (merged_new _ _ _ _ H).
  pose proof (novel_length C) as L.
  rewrite additional_names_length in L. lia.
Qed.

Lemma merge_size_bounds_witness :
  merge ascii_lower (JArr sample_existing)
  = Ok (novel sample_existing, sample_merged)
  /\ length sample_existing <= length sample_merged
     <= length sample_existing + 57.
Proof.
  split; [exact sample_merge|].
  exact (merge_size_bounds
           ascii_lower sample_existing (novel sample_existing) sample_merged
           sample_merge).
Defined.

(** X13: nothing is added exactly when the input already has every
    identifier of the literal list. *)
Theorem nothing_new_iff_all_present
    (lower : str -> str) (C new all : list json) :
  merge lower (JArr C) = Ok (new, all) ->
  new = [] <-> (forall n, In n additional_names -> In (id_of n) (ids C)).
Proof.
  intros H. rewrite (merged_new _ _ _ _ H). split.
  - intros E n Hn.
    destruct (existsb (option_json_eqb (id_of n)) (ids C)) eqn:Ex.
    + now apply existsb_option_json_eqb_In.
    + assert (Hin : In n (novel C)).
      { apply novel_In. split; trivial.
        rewrite <- existsb_option_json_eqb_In. congruence. }
      rewrite E in Hin. destruct Hin.
  - intros Hall. destruct (novel C) as [|n l] eqn:E; trivial.
    assert (Hin : In n (novel C)) by (rewrite E; now left).
    apply novel_In in Hin. destruct Hin as [Hn Hnot].
    destruct (Hnot (Hall n Hn)).
Qed.

Lemma nothing_new_iff_all_present_witness :
  merge ascii_lower (JArr sample_merged) = Ok ([], sample_merged)
  /\ ([] = @nil json
      <-> (forall n, In n additional_names ->
                     In (id_of n) (ids sample_merged))).
Proof.
  pose proof (merged_again _ _ _ _ sample_merge) as H.
  split; [exact H|].
  exact (nothing_new_iff_all_present
           ascii_lower sample_merged [] sample_merged H).
Defined.

(** X14: the merge does not repair an input with repeated identifiers: the
    identifiers of the output are pairwise distinct only if those of the
    input were. *)
Theorem repeated_identifiers_are_kept
    (lower : str -> str) (C new all : list json) :
  merge lower (JArr C) = Ok (new, all) ->
  NoDup (ids all) ->
  NoDup (ids C).
Proof.
  intros H N.
  apply (Permutation_NoDup (merged_ids_perm _ _ _ _ H)) in N.
  exact (NoDup_app_remove_r _ _ N).
Qed.

Lemma sample_merged_ids_NoDup : NoDup (ids sample_merged).
Proof.
  apply (NoDup_map_inv id_text). apply distinct_NoDup.
  vm_compute. reflexivity.
Qed.

Lemma repeated_identifiers_are_kept_witness :
  merge ascii_lower (JArr sample_existing)
  = Ok (novel sample_existing, sample_merged)
  /\ NoDup (ids sample_merged)
  /\ NoDup (ids sample_existing).
Proof.
  split; [exact sample_merge|]. split; [exact sample_merged_ids_NoDup|].
  exact (repeated_identifiers_are_kept
           ascii_lower sample_existing (novel sample_existing) sample_merged
           sample_merge sample_merged_ids_NoDup).
Defined.

(** X15: the output is the only arrangement of the existing records
    followed by the new ones that is sorted by key and keeps the records
    of every key in their order: a list of records with keys that has
    these two properties is the output. *)
Theorem sorted_stable_arrangement_is_the_output
    (lower : str -> str) (C new all out : list json) :
  merge lower (JArr C) = Ok (new, all) ->
  Forall (fun r => exists k, sort_key lower r = Ok k) out ->
  (forall pre a b post, out = pre ++ a :: b :: post ->
     key_leq (sort_key lower) a b) ->
  (forall k, filter (key_is (sort_key lower) k) out
             = filter (key_is (sort_key lower) k) (C ++ new)) ->
  out = all.
Proof.
  intros H D S F.
  exact (sort_by_unique _ _ _ _ (merged_sort _ _ _ _ H) D S F).
Qed.

Lemma sample_merged_keys :
  Forall (fun r => exists k, sort_key ascii_lower r = Ok k) sample_merged.
Proof.
  eapply Forall_impl; [|exact (merged_well_formed _ _ _ _ sample_merge)].
  intros r. apply well_formed_key.
Qed.

Lemma sample_merged_sorted (pre post : list json) (a b : json) :
  sample_merged = pre ++ a :: b :: post ->
  key_leq (sort_key ascii_lower) a b.
Proof.
  exact (sort_by_adjacent _ _ _ _ _ _ _
           (merged_sort _ _ _ _ sample_merge)).
Qed.

Lemma sample_merged_stable (k : str) :
  filter (key_is (sort_key ascii_lower) k) sample_merged
  = filter (key_is (sort_key ascii_lower) k)
           (sample_existing ++ novel sample_existing).
Proof.
  exact (sort_by_stable _ _ _ k (merged_sort _ _ _ _ sample_merge)).
Qed.

Lemma sorted_stable_arrangement_is_the_output_witness :
  merge ascii_lower (JArr sample_existing)
  = Ok (novel sample_existing, sample_merged)
  /\ Forall (fun r => exists k, sort_key ascii_lower r = Ok k) sample_merged
  /\ sample_merged = sample_merged.
Proof.
  split; [exact sample_merge|]. split; [exact sample_merged_keys|].
  exact (sorted_stable_arrangement_is_the_output
           ascii_lower sample_existing (novel sample_existing) sample_merged
           sample_merged sample_merge sample_merged_keys
           (fun pre a b post => sample_merged_sorted pre post a b)
           sample_merged_stable).
Defined.

(** ** Runs that fail after the merge, runs that succeed *)

Lemma sample_well_formed : Forall well_formed sample_existing.
Proof. exact (merge_ok_well_formed _ _ _ _ sample_merge). Qed.

Lemma sample_failed_run :
  main ascii_lower (const_loads (JArr sample_existing)) sample_dumps
       sample_write sample_print_once sample_state
  = (Err OSError, sample_failed).
Proof. vm_compute. reflexivity. Qed.

(** X5: a run that ends with an error has left the file and standard
    output as they were, with two exceptions: the write broke off after
    [open] had truncated the file, and then nothing was printed; or the
    write was completed and a [print] raised, and then the file holds the
    merged list and at most the first line was printed. *)
Theorem failed_run_outcomes
    (lower : str -> str) (json_loads : str -> result json)
    (json_dumps : json -> str) (os_write : str -> write_outcome)
    (os_print : str -> result unit)
    (s s' : state) (e : exn) :
  main lower json_loads json_dumps os_write os_print s = (Err e, s') ->
  s' = s
  \/ (exists all remains,
        os_write (json_dumps (JArr all)) = Torn remains
        /\ s' = {| names_json := remains; stdout := stdout s |})
  \/ (exists C new all,
        merge lower (JArr C) = Ok (new, all)
        /\ os_write (json_dumps (JArr all)) = Written
        /\ names_json s' = Contents (json_dumps (JArr all))
        /\ ((os_print (expanded_line (length C) (length all)) = Err e
             /\ stdout s' = stdout s)
            \/ (os_print (added_line (length new)) = Err e
                /\ stdout s'
                   = stdout s ++ [expanded_line (length C) (length all)]))).
Proof.
  unfold main, io_bind.
  destruct (load json_loads s) as [[v|e0] s1] eqn:El.
  - apply load_ok_inv in El. destruct El as (-> & text & Hf & Hl).
    unfold lift at 1.
    destruct (merge lower v) as [[new all]|e0] eqn:Em.
    + destruct (merge_ok_is_list _ _ _ Em) as (C & ->).
      unfold dump. destruct (os_write (json_dumps (JArr all))) eqn:Ew.
      * unfold lift, len, print. cbn [names_json stdout].
        destruct (os_print (expanded_line (length C) (length all)))
          as [u|e1] eqn:E1.
        -- cbn [names_json stdout].
           destruct (os_print (added_line (length new))) as [u'|e2] eqn:E2;
             try discriminate.
           intros H. injection H as <- <-. right. right.
           exists C, new, all. cbn [names_json stdout]. auto 7.
        -- intros H. injection H as <- <-. right. right.
           exists C, new, all. cbn [names_json stdout]. auto 7.
      * intros H. injection H as _ <-. now left.
      * intros H. injection H as _ <-. right. left.
        exists all, remains. auto.
    + intros H. injection H as _ <-. now left.
  - apply load_err_inv in El. destruct El as [-> _].
    intros H. injection H as _ <-. now left.
Qed.

Lemma failed_run_outcomes_witness :
  main ascii_lower (const_loads (JArr sample_existing)) sample_dumps
       sample_write sample_print_once sample_state
  = (Err OSError, sample_failed)
  /\ (sample_failed = sample_state
      \/ (exists all remains,
            sample_write (sample_dumps (JArr all)) = Torn remains
            /\ sample_failed
               = {| names_json := remains; stdout := stdout sample_state |})
      \/ (exists C new all,
            merge ascii_lower (JArr C) = Ok (new, all)
            /\ sample_write (sample_dumps (JArr all)) = Written
            /\ names_json sample_failed = Contents (sample_dumps (JArr all))
            /\ ((sample_print_once (expanded_line (length C) (length all))
                 = Err OSError
                 /\ stdout sample_failed = stdout sample_state)
                \/ (sample_print_once (added_line (length new)) = Err OSError
                    /\ stdout sample_failed
                       = stdout sample_state
                         ++ [expanded_line (length C) (length all)])))).
Proof.
  split; [exact sample_failed_run|].
  exact (failed_run_outcomes
           ascii_lower (const_loads (JArr sample_existing)) sample_dumps
           sample_write sample_print_once sample_state sample_failed OSError
           sample_failed_run).
Defined.

(** X6: when the file holds an array of well-formed records, the disk
    takes the text and the terminal takes the lines, the run ends without
    error: the file then holds the encoding of the merged list and the two
    lines have been printed. *)
Theorem well_formed_file_is_merged
    (lower : str -> str) (json_loads : str -> result json)
    (json_dumps : json -> str) (os_write : str -> write_outcome)
    (os_print : str -> result unit)
    (s : state) (text : str) (C : list json) :
  names_json s = Contents text ->
  json_loads text = Ok (JArr C) ->
  Forall well_formed C ->
  (forall t, os_write t = Written) ->
  (forall line, os_print line = Ok tt) ->
  exists all,
    merge lower (JArr C) = Ok (novel C, all)
    /\ main lower json_loads json_dumps os_write os_print s
       = (Ok tt,
          {| names_json := Contents (json_dumps (JArr all));
             stdout := stdout s
                       ++ [expanded_line (length C) (length all);
                           added_line (length (novel C))] |}).
Proof.
  intros Hf Hl W Hw Hp. destruct (merge_total lower C W) as (all & Hm).
  exists all. split; [exact Hm|].
  unfold main, io_bind, load. rewrite Hf, Hl. unfold lift at 1.
  rewrite Hm. unfold dump. rewrite Hw. unfold lift, len, print.
  rewrite !Hp. cbn [names_json stdout]. now rewrite <- app_assoc.
Qed.

Lemma well_formed_file_is_merged_witness :
  names_json sample_state = Contents (lit "[]")
  /\ const_loads (JArr sample_existing) (lit "[]") = Ok (JArr sample_existing)
  /\ Forall well_formed sample_existing
  /\ (forall t, sample_write t = Written)
  /\ (forall line, sample_print line = Ok tt)
  /\ exists all,
       merge ascii_lower (JArr sample_existing)
       = Ok (novel sample_existing, all)
       /\ main ascii_lower (const_loads (JArr sample_existing)) sample_dumps
               sample_write sample_print sample_state
          = (Ok tt,
             {| names_json := Contents (sample_dumps (JArr all));
                stdout := stdout sample_state
                          ++ [expanded_line (length sample_existing)
                                            (length all);
                              added_line (length (novel sample_existing))]
             |}).
Proof.
  split; [reflexivity|]. split; [reflexivity|].
  split; [exact sample_well_formed|]. split; [reflexivity|].
  split; [reflexivity|].
  exact (well_formed_file_is_merged
           ascii_lower (const_loads (JArr sample_existing)) sample_dumps
           sample_write sample_print sample_state (lit "[]") sample_existing
           eq_refl eq_refl sample_well_formed
           (fun t => eq_refl) (fun line => eq_refl)).
Defined.

(** X16: a second run changes nothing: when the file holds what a merge
    wrote, [json.load] reads back the list that was encoded, the disk takes
    the text and the terminal takes the two lines, the run ends without
    error, leaves the same text in the file and reports the same size
    twice and no new name. *)
Theorem second_run_changes_nothing
    (lower : str -> str) (json_loads : str -> result json)
    (json_dumps : json -> str) (os_write : str -> write_outcome)
    (os_print : str -> result unit)
    (s : state) (C new all : list json) :
  merge lower (JArr C) = Ok (new, all) ->
  names_json s = Contents (json_dumps (JArr all)) ->
  json_loads (json_dumps (JArr all)) = Ok (JArr all) ->
  os_write (json_dumps (JArr all)) = Written ->
  os_print (expanded_line (length all) (length all)) = Ok tt ->
  os_print (added_line 0) = Ok tt ->
  main lower json_loads json_dumps os_write os_print s
  = (Ok tt,
     {| names_json := names_json s;
        stdout := stdout s
                  ++ [expanded_line (length all) (length all);
                      added_line 0] |}).
Proof.
  intros H Hf Hl Hw Hp1 Hp2. pose proof (merged_again _ _ _ _ H) as H2.
  unfold main, io_bind, load. rewrite Hf, Hl. unfold lift at 1.
  rewrite H2. unfold dump. rewrite Hw. unfold lift, len, print.
  cbn [length]. rewrite Hp1. cbn [names_json stdout]. rewrite Hp2.
  cbn [names_json stdout]. now rewrite <- app_assoc.
Qed.

Lemma second_run_changes_nothing_witness :
  merge ascii_lower (JArr []) = Ok (additional_names, merged_empty)
  /\ names_json merged_state
     = Contents (const_dumps (lit "merged") (JArr merged_empty))
  /\ const_loads (JArr merged_empty)
                 (const_dumps (lit "merged") (JArr merged_empty))
     = Ok (JArr merged_empty)
  /\ sample_write (const_dumps (lit "merged") (JArr merged_empty)) = Written
  /\ sample_print (expanded_line (length merged_empty) (length merged_empty))
     = Ok tt
  /\ sample_print (added_line 0) = Ok tt
  /\ main ascii_lower (const_loads (JArr merged_empty))
          (const_dumps (lit "merged")) sample_write sample_print merged_state
     = (Ok tt,
        {| names_json := names_json merged_state;
           stdout := stdout merged_state
                     ++ [expanded_line (length merged_empty)
                                       (length merged_empty);
                         added_line 0] |}).
Proof.
  split; [exact merge_empty_ascii|]. split; [reflexivity|].
  split; [reflexivity|]. split; [reflexivity|]. split; [reflexivity|].
  split; [reflexivity|].
  exact (second_run_changes_nothing
           ascii_lower (const_loads (JArr merged_empty))
           (const_dumps (lit "merged")) sample_write sample_print
           merged_state [] additional_names merged_empty
           merge_empty_ascii eq_refl eq_refl eq_refl eq_refl eq_refl).
Defined.
